(** * parser/lexer.go: the HCL scanner

    A shallow embedding of [parser/lexer.go] (package [parser]) and the
    properties of its [Scan], [TokenLiteral], [Pos] and [next] operations.

    Conventions of the embedding.
    - A Go [int] and a [rune] are modelled as [Z].  Every [int] of the scanner
      is an offset into the input or a small sum of such offsets, so the
      64-bit wrap-around of [int] is never reached and is not written out.
    - A [\[\]byte] and a Go [string] are lists of bytes, a byte being a [Z]
      in [0, 256).
    - A method with a pointer receiver is a function from the scanner state
      to its result and the new state.
    - A Go run-time panic (a slice expression out of range) is the result
      [Panic]; a loop of the source is a [Fixpoint] on a fuel argument and
      [OutOfFuel] is the result of a loop that used all of it. *)

From Stdlib Require Import String ZArith List Bool Lia.
Import ListNotations.
Local Open Scope Z_scope.

(** ** Results of operations that can fail *)

Inductive result (A : Type) : Type :=
| Ok (a : A)
| Panic
| OutOfFuel.
Arguments Ok {A} a.
Arguments Panic {A}.
Arguments OutOfFuel {A}.

Definition bind {A B : Type} (r : result A) (f : A -> result B) : result B :=
  match r with
  | Ok a => f a
  | Panic => Panic
  | OutOfFuel => OutOfFuel
  end.

Notation "x <- r ;; k" := (bind r (fun x => k))
  (at level 61, r at next level, right associativity).
Notation "' p <- r ;; k" := (bind r (fun x => let 'p := x in k))
  (at level 61, p pattern, r at next level, right associativity).

(** ** Go library functions used by the scanner *)

(** [utf8.RuneError], the replacement character U+FFFD. *)
Definition RuneError : Z := 0xFFFD.

(** [utf8.RuneSelf]: bytes below it are characters of one byte. *)
Definition RuneSelf : Z := 0x80.

(** A continuation byte lies in [lo, hi]. *)
Definition inRange (lo hi b : Z) : bool := (lo <=? b) && (b <=? hi).

(** [utf8.DecodeRune p] for a [p] whose first byte is [p0 >= RuneSelf] and
    whose other bytes are [rest]: the first character of [p] and its width
    in bytes, [(RuneError, 1)] when the encoding is malformed or cut short.
    The accepted range of the second byte depends on the first one (Go's
    [acceptRanges]); the third and fourth bytes lie in [0x80, 0xBF]. *)
Definition DecodeRune (p0 : Z) (rest : list Z) : Z * Z :=
  let two lo hi :=
    match rest with
    | b1 :: _ =>
        if inRange lo hi b1
        then (Z.lor (Z.shiftl (Z.land p0 0x1F) 6) (Z.land b1 0x3F), 2)
        else (RuneError, 1)
    | _ => (RuneError, 1)
    end in
  let three lo hi :=
    match rest with
    | b1 :: b2 :: _ =>
        if inRange lo hi b1 && inRange 0x80 0xBF b2
        then (Z.lor (Z.lor (Z.shiftl (Z.land p0 0x0F) 12)
                           (Z.shiftl (Z.land b1 0x3F) 6))
                    (Z.land b2 0x3F), 3)
        else (RuneError, 1)
    | _ => (RuneError, 1)
    end in
  let four lo hi :=
    match rest with
    | b1 :: b2 :: b3 :: _ =>
        if inRange lo hi b1 && inRange 0x80 0xBF b2 && inRange 0x80 0xBF b3
        then (Z.lor (Z.lor (Z.lor (Z.shiftl (Z.land p0 0x07) 18)
                                  (Z.shiftl (Z.land b1 0x3F) 12))
                           (Z.shiftl (Z.land b2 0x3F) 6))
                    (Z.land b3 0x3F), 4)
        else (RuneError, 1)
    | _ => (RuneError, 1)
    end in
  if inRange 0xC2 0xDF p0 then two 0x80 0xBF
  else if p0 =? 0xE0 then three 0xA0 0xBF
  else if inRange 0xE1 0xEC p0 then three 0x80 0xBF
  else if p0 =? 0xED then three 0x80 0x9F
  else if inRange 0xEE 0xEF p0 then three 0x80 0xBF
  else if p0 =? 0xF0 then four 0x90 0xBF
  else if inRange 0xF1 0xF3 p0 then four 0x80 0xBF
  else if p0 =? 0xF4 then four 0x80 0x8F
  else (RuneError, 1).

(** What [ReadRune] of [bytes.Buffer] returns: the character, its width and
    whether [err] is non-nil. *)
Record ReadRune_result : Type := mkReadRune {
  rr_rune : Z;
  rr_size : Z;
  rr_err : bool
}.

(** [ReadRune] of [bytes.Buffer] on a buffer whose unread bytes are [buf]: the
    result and the bytes left unread.  On an empty buffer it returns
    [(0, 0, io.EOF)]; a byte below [RuneSelf] is a character of width 1;
    otherwise the character is decoded, a malformed encoding giving
    [(RuneError, 1)] with a nil error. *)
Definition ReadRune (buf : list Z) : ReadRune_result * list Z :=
  match buf with
  | [] => (mkReadRune 0 0 true, [])
  | c :: tl =>
      if c <? RuneSelf then (mkReadRune c 1 false, tl)
      else let '(r, n) := DecodeRune c tl in
           (mkReadRune r n false, skipn (Z.to_nat n) buf)
  end.

(** The slice expression [b\[lo:hi\]].  Go panics unless
    [0 <= lo <= hi <= cap(b)]; the capacity of a slice is at least its
    length and is not known here, so the model takes the length for it and
    panics wherever Go does. *)
Definition slice (b : list Z) (lo hi : Z) : result (list Z) :=
  if (0 <=? lo) && (lo <=? hi) && (hi <=? Z.of_nat (length b))
  then Ok (firstn (Z.to_nat (hi - lo)) (skipn (Z.to_nat lo) b))
  else Panic.

(** An [io.Reader], as [ioutil.ReadAll] sees it: the bytes it yields and the
    error, if any, that ends the read. *)
Record Reader : Type := mkReader {
  reader_data : list Z;
  reader_err : option string
}.

Definition ReadAll (r : Reader) : list Z * option string :=
  (reader_data r, reader_err r).

(** ** The data of the scanner *)

(** Modelled from the spec: the declaration of [Position] is not part of
    [lexer.go]; the scanner uses its fields [Offset], [Line] and [Column],
    which the spec gives as the byte offset from the start, the line count
    and the byte offset within the current line. *)
Record Position : Type := mkPosition {
  Offset : Z;
  Line : Z;
  Column : Z
}.

(** The composite literal [Position{}]. *)
Definition Position_zero : Position := mkPosition 0 0 0.

(** [eof] represents a marker rune for the end of the reader. *)
Definition eof : Z := 0.

(** The struct [Scanner].  The field [src] holds the unread bytes of the
    [bytes.Buffer]; [srcBytes] is the whole input. *)
Record Scanner : Type := mkScanner {
  src : list Z;
  srcBytes : list Z;
  ch : Z;
  lastCharLen : Z;
  pos : Position;
  tokBuf : list Z;
  tokPos : Z;
  tokEnd : Z
}.

(** The scanner [&Scanner{src: b, srcBytes: b.Bytes()}] over the bytes
    [buf]; the other fields have their zero value. *)
Definition newScanner (buf : list Z) : Scanner :=
  mkScanner buf buf 0 0 Position_zero [] 0 0.

(** [NewLexer]: the scanner and a nil error, or no scanner and the error of
    the read. *)
Definition NewLexer (r : Reader) : option Scanner * option string :=
  match ReadAll r with
  | (_, Some err) => (None, Some err)
  | (buf, None) => (Some (newScanner buf), None)
  end.

(** ** Classification of characters *)

Definition isSpace (r : Z) : bool := (r =? 32) || (r =? 9).

Definition isEndOfLine (r : Z) : bool := (r =? 13) || (r =? 10).

Definition isWhitespace (c : Z) : bool :=
  (c =? 32) || (c =? 9) || (c =? 10) || (c =? 13).

(** ** The cursor *)

Definition set_cursor (s : Scanner) (c : Z) (rest : list Z) : Scanner :=
  mkScanner rest (srcBytes s) c (lastCharLen s) (pos s)
            (tokBuf s) (tokPos s) (tokEnd s).

Definition advance (s : Scanner) (size : Z) : Scanner :=
  mkScanner (src s) (srcBytes s) (ch s) size
            (mkPosition (Offset (pos s) + size) (Line (pos s))
                        (Column (pos s) + size))
            (tokBuf s) (tokPos s) (tokEnd s).

Definition newline (s : Scanner) : Scanner :=
  mkScanner (src s) (srcBytes s) (ch s) (lastCharLen s)
            (mkPosition (Offset (pos s)) (Line (pos s) + 1) 0)
            (tokBuf s) (tokPos s) (tokEnd s).

(** [next]: the character read and the new state. *)
Definition next (s : Scanner) : Z * Scanner :=
  let '(rr, rest) := ReadRune (src s) in
  let s1 := set_cursor s (rr_rune rr) rest in
  if rr_err rr then (eof, s1)
  else
    let s2 := advance s1 (rr_size rr) in
    let s3 := if ch s2 =? 10 then newline s2 else s2 in
    (ch s3, s3).

(** ** The declarations outside lexer.go

    [lexer.go] uses the type [Token], its constants [IDENT] and [EOF], and
    the tables behind [unicode.IsLetter] and [unicode.IsDigit], none of which
    it declares.  The scanner takes them as parameters: [Token_zero] is the
    zero value of [Token], the value of the named result [tok] of [Scan]
    until a branch assigns it. *)
Class Declarations : Type := {
  Token : Type;
  Token_zero : Token;
  IDENT : Token;
  EOF : Token;
  unicode_IsLetter : Z -> bool;
  unicode_IsDigit : Z -> bool
}.

Section Lexer.

Context `{Declarations}.

Definition isLetter (c : Z) : bool :=
  ((97 <=? c) && (c <=? 122)) || ((65 <=? c) && (c <=? 90)) || (c =? 95) ||
  ((0x80 <=? c) && unicode_IsLetter c).

Definition isDigit (c : Z) : bool :=
  ((48 <=? c) && (c <=? 57)) || ((0x80 <=? c) && unicode_IsDigit c).

(** ** Scan *)

Definition set_tokBuf (s : Scanner) (b : list Z) : Scanner :=
  mkScanner (src s) (srcBytes s) (ch s) (lastCharLen s) (pos s)
            b (tokPos s) (tokEnd s).

Definition set_tokPos (s : Scanner) (p : Z) : Scanner :=
  mkScanner (src s) (srcBytes s) (ch s) (lastCharLen s) (pos s)
            (tokBuf s) p (tokEnd s).

Definition set_tokEnd (s : Scanner) (e : Z) : Scanner :=
  mkScanner (src s) (srcBytes s) (ch s) (lastCharLen s) (pos s)
            (tokBuf s) (tokPos s) e.

(** The fuel given to a loop of [Scan]: one iteration more than there are
    unread bytes. *)
Definition loop_fuel (s : Scanner) : nat := S (length (src s)).

(** The loop [for isWhitespace(ch) { ch = s.next() }]. *)
Fixpoint skipWhitespace (fuel : nat) (c : Z) (s : Scanner)
  : result (Z * Scanner) :=
  if isWhitespace c then
    match fuel with
    | O => OutOfFuel
    | S fuel' => let '(c', s') := next s in skipWhitespace fuel' c' s'
    end
  else Ok (c, s).

(** The loop [for isLetter(s.ch) || isDigit(s.ch) { s.next() }] of
    [scanIdentifier]. *)
Fixpoint scanIdentifier_loop (fuel : nat) (s : Scanner) : result Scanner :=
  if isLetter (ch s) || isDigit (ch s) then
    match fuel with
    | O => OutOfFuel
    | S fuel' => scanIdentifier_loop fuel' (snd (next s))
    end
  else Ok s.

Definition scanIdentifier (s : Scanner) : result Scanner :=
  scanIdentifier_loop (loop_fuel s) s.

(** [TokenLiteral]: the literal and the new state. *)
Definition TokenLiteral (s : Scanner) : result (list Z * Scanner) :=
  if tokPos s <? 0 then Ok ([], s)
  else
    b <- slice (srcBytes s) (tokPos s) (tokEnd s) ;;
    let s1 := set_tokBuf s (tokBuf s ++ b) in
    let s2 := set_tokPos s1 (tokEnd s1) in
    Ok (tokBuf s2, s2).

(** The first part of [Scan], up to the assignment of [s.tokPos]: the
    character [ch] and the state with the start of the token recorded. *)
Definition Scan_start (s : Scanner) : result (Z * Scanner) :=
  let '(c0, s0) := next s in
  '(c, s1) <- skipWhitespace (loop_fuel s0) c0 s0 ;;
  let s2 := set_tokBuf s1 [] in
  let s3 := set_tokPos s2 (Offset (pos s2) - lastCharLen s2) in
  Ok (c, s3).

(** The second part of [Scan], from the classification of [ch] to the
    assignment of [s.tokEnd]: the token and the state with the end of the
    token recorded. *)
Definition Scan_token (c : Z) (s : Scanner) : result (Token * Scanner) :=
  '(tok1, s1) <- (if isLetter c
                  then s' <- scanIdentifier s ;; Ok (IDENT, s')
                  else Ok (Token_zero, s)) ;;
  let s2 := if isDigit c then s1 (* scan for number *) else s1 in
  let tok2 := if c =? eof then EOF else tok1 in
  let s3 := set_tokEnd s2 (Offset (pos s2) - lastCharLen s2) in
  Ok (tok2, s3).

(** [Scan]: the token, its literal and the new state. *)
Definition Scan (s : Scanner) : result (Token * list Z * Scanner) :=
  '(c, s1) <- Scan_start s ;;
  '(tok, s2) <- Scan_token c s1 ;;
  '(lit, s3) <- TokenLiteral s2 ;;
  Ok (tok, lit, s3).

(** [Pos]. *)
Definition Pos (s : Scanner) : Position := Position_zero.

(** [n] calls of [Scan] in a row: the tokens and literals returned, in
    order, and the final state. *)
Fixpoint Scan_n (n : nat) (s : Scanner)
  : result (list (Token * list Z) * Scanner) :=
  match n with
  | O => Ok ([], s)
  | S n' =>
      '(tok, lit, s1) <- Scan s ;;
      '(l, s2) <- Scan_n n' s1 ;;
      Ok ((tok, lit) :: l, s2)
  end.

(** The calls a client can make on a scanner, and the states they lead to
    from the scanner that [NewLexer] returns for the input [input]. *)
Inductive reachable (input : list Z) : Scanner -> Prop :=
| reach_NewLexer : reachable input (newScanner input)
| reach_Scan s tok lit s' :
    reachable input s -> Scan s = Ok (tok, lit, s') -> reachable input s'
| reach_TokenLiteral s lit s' :
    reachable input s -> TokenLiteral s = Ok (lit, s') -> reachable input s'.

End Lexer.

(** ** Definitions for the statements *)

(** The position after one more byte. *)
Definition advance_byte (p : Position) (b : Z) : Position :=
  if b =? 10 then mkPosition (Offset p + 1) (Line p + 1) 0
  else mkPosition (Offset p + 1) (Line p) (Column p + 1).

(** The position after the bytes [consumed]: their number, the number of
    line feeds among them and the number of bytes after the last line
    feed. *)
Definition position_of (consumed : list Z) : Position :=
  fold_left advance_byte consumed Position_zero.

(** The state after [next] has read a character [r] of [n] bytes, [rest]
    being the bytes left unread. *)
Definition after_char (s : Scanner) (r n : Z) (rest : list Z) : Scanner :=
  mkScanner rest (srcBytes s) r n
            (mkPosition (Offset (pos s) + n)
                        (if r =? 10 then Line (pos s) + 1 else Line (pos s))
                        (if r =? 10 then 0 else Column (pos s) + n))
            (tokBuf s) (tokPos s) (tokEnd s).

(** The offset at which the last character read begins: what [Scan] records
    as the start and as the end of a token. *)
Definition mark (s : Scanner) : Z := Offset (pos s) - lastCharLen s.

(** The cursor is consistent: the bytes read and the unread ones make up the
    input, the position is that of the bytes read, and the last character
    read lies before the offset. *)
Definition cursor_ok (s : Scanner) : Prop :=
  (exists consumed,
      srcBytes s = consumed ++ src s /\ pos s = position_of consumed) /\
  0 <= lastCharLen s <= Offset (pos s).

(** The span of the token lies in the part of the input already read. *)
Definition span_ok (s : Scanner) : Prop :=
  0 <= tokPos s <= tokEnd s /\ tokEnd s <= Offset (pos s).

Definition inv (s : Scanner) : Prop := cursor_ok s /\ span_ok s.

(** Zero or more calls of [next]. *)
Inductive nexts : Scanner -> Scanner -> Prop :=
| nexts_refl s : nexts s s
| nexts_step s s' : nexts (snd (next s)) s' -> nexts s s'.

#[local] Hint Constructors nexts : core.

(** The calls of [next] made by a loop that goes on while the current
    character satisfies [P]. *)
Inductive steps_while (P : Z -> bool) : Scanner -> Scanner -> Prop :=
| steps_done s : steps_while P s s
| steps_more s s' :
    P (ch s) = true -> steps_while P (snd (next s)) s' -> steps_while P s s'.

(** What one call of [next] keeps and changes. *)
Record next_step (s s' : Scanner) : Prop := {
  step_srcBytes : srcBytes s' = srcBytes s;
  step_tokBuf : tokBuf s' = tokBuf s;
  step_tokPos : tokPos s' = tokPos s;
  step_tokEnd : tokEnd s' = tokEnd s;
  step_Offset : Offset (pos s) <= Offset (pos s');
  step_mark : cursor_ok s -> mark s <= mark s';
  step_cursor : cursor_ok s -> cursor_ok s';
  step_src : (length (src s') <= length (src s))%nat
}.

Section Statements.

Context `{Declarations}.

(** The condition of the loop of [scanIdentifier]. *)
Definition isLetterOrDigit (c : Z) : bool := isLetter c || isDigit c.

(** The token that [Scan] returns for the character [c] that follows the
    white space. *)
Definition token_of (c : Z) : Token :=
  if c =? eof then EOF else if isLetter c then IDENT else Token_zero.

(** The state in which [Scan] returns: the cursor of [s2], the literal in
    [tokBuf] and an empty span at the end of the token. *)
Definition Scan_final (s2 : Scanner) (lit : list Z) : Scanner :=
  mkScanner (src s2) (srcBytes s2) (ch s2) (lastCharLen s2) (pos s2)
            lit (mark s2) (mark s2).

(** [buf] is made of letters and digits only: the width of its last
    character, or [w] when it is empty. *)
Fixpoint letters_digits (fuel : nat) (buf : list Z) (w : Z) : option Z :=
  match buf with
  | [] => Some w
  | _ :: _ =>
      match fuel with
      | O => None
      | S fuel' =>
          let '(rr, rest) := ReadRune buf in
          if isLetterOrDigit (rr_rune rr)
          then letters_digits fuel' rest (rr_size rr)
          else None
      end
  end.

(** [input] is a single identifier, a letter followed by letters and digits:
    the width in bytes of its last character. *)
Definition identifier (input : list Z) : option Z :=
  let '(rr, rest) := ReadRune input in
  if negb (rr_err rr) && isLetter (rr_rune rr)
  then letters_digits (length rest) rest (rr_size rr)
  else None.

End Statements.

(** The bytes that follow the leading white space of [buf]. *)
Fixpoint after_whitespace (buf : list Z) : list Z :=
  match buf with
  | [] => []
  | b :: tl => if isWhitespace b then after_whitespace tl else buf
  end.

(** Two scanners with the same unread bytes, the same current character and
    the same width of the last character, at offsets that differ by [d]. *)
Record same_cursor (d : Z) (s t : Scanner) : Prop := {
  same_src : src s = src t;
  same_ch : ch s = ch t;
  same_lastCharLen : lastCharLen s = lastCharLen t;
  same_Offset : Offset (pos s) = Offset (pos t) + d
}.

Section FurtherStatements.

Context `{Declarations}.

(** The number of bytes of the longest run of letters and digits that
    [buf] begins with. *)
Fixpoint run_length (fuel : nat) (buf : list Z) : Z :=
  match fuel with
  | O => 0
  | S fuel' =>
      let '(rr, rest) := ReadRune buf in
      if negb (rr_err rr) && isLetterOrDigit (rr_rune rr)
      then rr_size rr + run_length fuel' rest
      else 0
  end.

End FurtherStatements.

(** ** The declarations of the examples *)

(** A token type of three tags, the first being its zero value. *)
Inductive ExampleToken : Type :=
| ex_zero
| ex_EOF
| ex_IDENT.

(** [unicode.IsLetter] on the Latin-1 characters from [0x80] on (the letters
    of Go's Latin-1 property table), false beyond them. *)
Definition latin1_IsLetter (r : Z) : bool :=
  (r =? 0xAA) || (r =? 0xB5) || (r =? 0xBA) ||
  inRange 0xC0 0xD6 r || inRange 0xD8 0xF6 r || inRange 0xF8 0xFF r.

(** [unicode.IsDigit] on the Latin-1 characters from [0x80] on: none of them
    is a digit. *)
Definition latin1_IsDigit (r : Z) : bool := false.

Definition example_declarations : Declarations :=
  {| Token := ExampleToken;
     Token_zero := ex_zero;
     IDENT := ex_IDENT;
     EOF := ex_EOF;
     unicode_IsLetter := latin1_IsLetter;
     unicode_IsDigit := latin1_IsDigit |}.

(** The bytes of an ASCII string. *)
Definition bytes (str : string) : list Z :=
  map (fun a => Z.of_nat (Ascii.nat_of_ascii a)) (list_ascii_of_string str).

(** The state in which [Scan], called on the input "a b", has recorded the
    start of the token. *)
Definition started_a_b : Scanner :=
  mkScanner [32; 98] (bytes "a b") 97 1 (mkPosition 1 0 1) [] 0 0.

(** The state in which that call of [Scan] calls [TokenLiteral]: the span of
    the token is [0, 1). *)
Definition scanning_a_b : Scanner :=
  mkScanner [98] (bytes "a b") 32 1 (mkPosition 2 0 2) [] 0 1.

(** The state in which that call of [Scan] returns. *)
Definition scanned_a_b : Scanner :=
  mkScanner [98] (bytes "a b") 32 1 (mkPosition 2 0 2) (bytes "a") 1 1.

(** ** Facts about the library functions *)

Lemma DecodeRune_size (p0 : Z) (rest : list Z) (r n : Z) :
  DecodeRune p0 rest = (r, n) ->
  1 <= n <= 4 /\ n <= 1 + Z.of_nat (length rest).
Proof.
  unfold DecodeRune.
  destruct rest as [|b1 [|b2 [|b3 rest]]]; cbn [length];
    repeat match goal with
           | |- context [if ?b then _ else _] => destruct b
           end;
    intros E; inversion E; subst; lia.
Qed.

Lemma lor_lower (x y : Z) :
  0 <= x -> 0 <= y -> 0 <= Z.lor x y /\ x <= Z.lor x y /\ y <= Z.lor x y.
Proof.
  intros Hx Hy.
  pose proof (Zbitwise.Z.add_lor_land x y) as Hadd.
  pose proof (Zbitwise.Z.sub_land_same_l x y) as Hl.
  pose proof (Zbitwise.Z.sub_land_same_l y x) as Hr.
  rewrite (Z.land_comm y x) in Hr.
  assert (0 <= Z.land x (Z.lnot y)) by (apply Z.land_nonneg; auto).
  assert (0 <= Z.land y (Z.lnot x)) by (apply Z.land_nonneg; auto).
  assert (0 <= Z.land x y) by (apply Z.land_nonneg; auto).
  lia.
Qed.

(** A character that [DecodeRune] returns lies outside ASCII, and so do the
    bytes after the first that it consumes. *)
Lemma DecodeRune_bytes (p0 : Z) (rest : list Z) (r n : Z) :
  DecodeRune p0 rest = (r, n) ->
  0x80 <= r /\ Forall (fun b => 0x80 <= b) (firstn (Z.to_nat (n - 1)) rest).
Proof.
  unfold DecodeRune, inRange.
  destruct rest as [|b1 [|b2 [|b3 rest]]]; cbv beta zeta;
    change 0x3F with (Z.ones 6); change 0x1F with (Z.ones 5);
    change 0x0F with (Z.ones 4); change 0x07 with (Z.ones 3);
    rewrite ?Z.land_ones, ?Z.shiftl_mul_pow2 by lia;
    repeat match goal with
           | |- context [if ?b then _ else _] => destruct b eqn:?
           end;
    intros [= <- <-];
    (split;
     [| cbn [firstn Z.to_nat Z.sub Z.add Z.opp Z.pos_sub Pos.to_nat
             Pos.iter_op Init.Nat.add Pos.pred_double];
        repeat constructor ]);
    repeat match goal with
           | H : _ && _ = true |- _ => apply andb_prop in H; destruct H
           | H : (_ <=? _) = true |- _ => apply Z.leb_le in H
           | H : (_ =? _) = true |- _ => apply Z.eqb_eq in H
           end;
    try (unfold RuneError; lia);
    repeat match goal with
           | |- context [Z.lor ?x ?y] =>
               lazymatch goal with
               | _ : 0 <= x -> 0 <= y -> _ |- _ => fail
               | _ => pose proof (lor_lower x y)
               end
           end;
    repeat match goal with
           | |- context [Z.pow_pos 2 ?k] =>
               let v := eval vm_compute in (Z.pow_pos 2 k) in
               change (Z.pow_pos 2 k) with v in *
           end;
    Z.div_mod_to_equations; lia.
Qed.

Lemma ReadRune_nil : ReadRune [] = (mkReadRune 0 0 true, []).
Proof. reflexivity. Qed.

(** On a buffer that is not empty [ReadRune] returns no error and consumes
    between one and four bytes; the character is a line feed exactly when
    the bytes consumed are the one byte 10, and otherwise no byte consumed
    is 10. *)
Lemma ReadRune_cons (c : Z) (tl : list Z) :
  exists r n pre rest,
    ReadRune (c :: tl) = (mkReadRune r n false, rest) /\
    c :: tl = pre ++ rest /\
    Z.of_nat (length pre) = n /\ 1 <= n <= 4 /\
    (if r =? 10 then pre = [10] else Forall (fun b => b <> 10) pre).
Proof.
  unfold ReadRune. destruct (c <? RuneSelf) eqn:Hc.
  - exists c, 1, [c], tl. repeat split; try lia.
    destruct (c =? 10) eqn:E.
    + apply Z.eqb_eq in E. now subst.
    + apply Z.eqb_neq in E. now repeat constructor.
  - destruct (DecodeRune c tl) as [r n] eqn:E.
    pose proof (DecodeRune_bytes _ _ _ _ E) as [Hr Hb].
    apply DecodeRune_size in E. destruct E as [Hn Hlen].
    apply Z.ltb_ge in Hc. unfold RuneSelf in Hc.
    exists r, n, (firstn (Z.to_nat n) (c :: tl)), (skipn (Z.to_nat n) (c :: tl)).
    repeat split; try lia.
    + symmetry. apply firstn_skipn.
    + rewrite length_firstn. cbn [length]. lia.
    + replace (r =? 10) with false by (symmetry; apply Z.eqb_neq; lia).
      replace (Z.to_nat n) with (S (Z.to_nat (n - 1))) by lia.
      cbn [firstn]. constructor; [lia|].
      eapply Forall_impl; [|exact Hb]. cbn. intros; lia.
Qed.

Lemma position_of_app (consumed pre : list Z) :
  position_of (consumed ++ pre) = fold_left advance_byte pre (position_of consumed).
Proof. apply fold_left_app. Qed.

Lemma fold_advance_no_newline (pre : list Z) (p : Position) :
  Forall (fun b => b <> 10) pre ->
  fold_left advance_byte pre p =
    mkPosition (Offset p + Z.of_nat (length pre)) (Line p)
               (Column p + Z.of_nat (length pre)).
Proof.
  intros HF. revert p. induction HF as [|b pre Hb _ IH]; intros p.
  - cbn. destruct p; cbn. f_equal; lia.
  - cbn [fold_left length]. rewrite IH. unfold advance_byte.
    replace (b =? 10) with false by (symmetry; now apply Z.eqb_neq).
    cbn. f_equal; lia.
Qed.

Lemma position_of_Offset (consumed : list Z) :
  Offset (position_of consumed) = Z.of_nat (length consumed).
Proof.
  unfold position_of.
  assert (G : forall p, Offset (fold_left advance_byte consumed p) =
                        Offset p + Z.of_nat (length consumed)).
  { induction consumed as [|b l IH]; intros p; cbn [fold_left length].
    - lia.
    - rewrite IH. unfold advance_byte. destruct (b =? 10); cbn; lia. }
  rewrite G. cbn. lia.
Qed.

(** ** Facts about [next] *)

Lemma next_eof (s : Scanner) :
  src s = [] -> next s = (eof, set_cursor s eof []).
Proof. unfold next. intros ->. reflexivity. Qed.

Lemma next_cases (s : Scanner) :
  (src s = [] /\ next s = (eof, set_cursor s eof [])) \/
  (exists r n pre rest,
      src s = pre ++ rest /\ Z.of_nat (length pre) = n /\ 1 <= n <= 4 /\
      ReadRune (src s) = (mkReadRune r n false, rest) /\
      next s = (r, after_char s r n rest) /\
      (if r =? 10 then pre = [10] else Forall (fun b => b <> 10) pre)).
Proof.
  destruct (src s) as [|c tl] eqn:Hsrc.
  - left. split; [reflexivity | now apply next_eof].
  - right.
    destruct (ReadRune_cons c tl) as (r & n & pre & rest & HR & Hsplit & Hlen & Hn & Hnl).
    exists r, n, pre, rest.
    split; [assumption|]. split; [assumption|]. split; [assumption|].
    split; [assumption|]. split; [|assumption].
    unfold next. rewrite Hsrc, HR. cbn.
    unfold after_char. destruct (r =? 10); reflexivity.
Qed.

Lemma next_ReadRune (s : Scanner) (r n : Z) (rest : list Z) :
  ReadRune (src s) = (mkReadRune r n false, rest) ->
  next s = (r, after_char s r n rest).
Proof.
  intros HR.
  destruct (next_cases s)
    as [[Hsrc _] | (r' & n' & pre & rest' & _ & _ & _ & HR' & Hn & _)].
  - rewrite Hsrc in HR. discriminate.
  - rewrite HR in HR'. injection HR' as <- <- <-. exact Hn.
Qed.

(** A malformed encoding is not an error of [ReadRune]: [next] reads the
    byte [0xFF] as the character U+FFFD of width 1 and advances. *)
Lemma next_malformed_byte (s : Scanner) (tl : list Z) :
  src s = 0xFF :: tl -> next s = (RuneError, after_char s RuneError 1 tl).
Proof.
  intros Hsrc. apply next_ReadRune. rewrite Hsrc. reflexivity.
Qed.

Lemma nexts_trans (s1 s2 s3 : Scanner) :
  nexts s1 s2 -> nexts s2 s3 -> nexts s1 s3.
Proof. induction 1; eauto. Qed.

Lemma steps_while_nexts (P : Z -> bool) (s s' : Scanner) :
  steps_while P s s' -> nexts s s'.
Proof. induction 1; eauto. Qed.

Lemma cursor_ok_length (s : Scanner) :
  cursor_ok s ->
  Offset (pos s) + Z.of_nat (length (src s)) = Z.of_nat (length (srcBytes s)).
Proof.
  intros [(consumed & Hsplit & Hpos) _].
  rewrite Hsplit, length_app, Hpos, position_of_Offset. lia.
Qed.

Lemma next_next_step (s : Scanner) : next_step s (snd (next s)).
Proof.
  destruct (next_cases s)
    as [[Hsrc ->] | (r & n & pre & rest & Hsrc & Hlen & Hn & _ & -> & Hnl)];
    cbn [snd].
  - constructor; cbn; try reflexivity; try lia.
    intros [(consumed & Hsplit & Hpos) Hl]. split; cbn; [|lia].
    exists consumed. rewrite Hsplit, Hsrc. split; [reflexivity | assumption].
  - constructor; cbn; try reflexivity; try lia.
    + unfold mark. cbn. intros [_ Hl]. lia.
    + intros [(consumed & Hsplit & Hpos) Hl]. split; cbn; [|lia].
      exists (consumed ++ pre). rewrite Hsplit, Hsrc, app_assoc.
      split; [reflexivity|].
      rewrite position_of_app, <- Hpos.
      destruct (r =? 10).
      * subst pre. cbn in Hlen. subst n. reflexivity.
      * rewrite (fold_advance_no_newline _ _ Hnl), Hlen. reflexivity.
    + rewrite Hsrc, length_app. lia.
Qed.

Lemma nexts_next_step (s s' : Scanner) : nexts s s' -> next_step s s'.
Proof.
  induction 1 as [s | s s' _ IH].
  - constructor; auto; lia.
  - pose proof (next_next_step s) as H1.
    destruct H1, IH. constructor; try congruence; try lia; auto.
    intros Hc. specialize (step_mark0 Hc). specialize (step_cursor0 Hc).
    specialize (step_mark1 step_cursor0). lia.
Qed.

(** After a call of [next] at the end of the input, another one changes
    nothing. *)
Lemma next_eof_idem (s : Scanner) :
  src s = [] -> next (snd (next s)) = next s.
Proof.
  intros Hsrc. rewrite (next_eof s Hsrc). cbn [snd].
  rewrite next_eof by reflexivity. reflexivity.
Qed.

Lemma next_ch (s : Scanner) : fst (next s) = ch (snd (next s)).
Proof.
  destruct (next_cases s) as [[_ ->] | (r & n & pre & rest & _ & _ & _ & _ & -> & _)];
    reflexivity.
Qed.

Lemma slice_ok (b : list Z) (lo hi : Z) :
  0 <= lo <= hi -> hi <= Z.of_nat (length b) ->
  slice b lo hi = Ok (firstn (Z.to_nat (hi - lo)) (skipn (Z.to_nat lo) b)).
Proof.
  intros Hlo Hhi. unfold slice.
  replace (0 <=? lo) with true by (symmetry; apply Z.leb_le; lia).
  replace (lo <=? hi) with true by (symmetry; apply Z.leb_le; lia).
  replace (hi <=? Z.of_nat (length b)) with true by (symmetry; apply Z.leb_le; lia).
  reflexivity.
Qed.

Lemma slice_empty (b : list Z) (lo : Z) :
  0 <= lo <= Z.of_nat (length b) -> slice b lo lo = Ok [].
Proof.
  intros Hlo. rewrite slice_ok by lia. now rewrite Z.sub_diag.
Qed.

Lemma slice_inv (b : list Z) (lo hi : Z) (l : list Z) :
  slice b lo hi = Ok l ->
  0 <= lo <= hi /\ hi <= Z.of_nat (length b) /\
  l = firstn (Z.to_nat (hi - lo)) (skipn (Z.to_nat lo) b).
Proof.
  unfold slice.
  destruct (0 <=? lo) eqn:E1; [|discriminate].
  destruct (lo <=? hi) eqn:E2; [|discriminate].
  destruct (hi <=? Z.of_nat (length b)) eqn:E3; [|discriminate].
  cbn. intros [= <-]. apply Z.leb_le in E1, E2, E3. repeat split; lia.
Qed.

Section Properties.

Context `{Declarations}.

Lemma isLetter_eof : isLetter eof = false.
Proof. reflexivity. Qed.

Lemma isDigit_eof : isDigit eof = false.
Proof. reflexivity. Qed.

(** ** The loops of [Scan] end *)

Lemma skipWhitespace_total (fuel : nat) (s : Scanner) :
  (length (src s) < fuel)%nat ->
  exists s',
    skipWhitespace fuel (ch s) s = Ok (ch s', s') /\
    isWhitespace (ch s') = false /\ steps_while isWhitespace s s'.
Proof.
  revert s. induction fuel as [|fuel IH]; intros s Hfuel; [lia|].
  cbn [skipWhitespace].
  destruct (isWhitespace (ch s)) eqn:Hws.
  - destruct (next s) as [c' s1] eqn:Hnext.
    assert (Hc : c' = ch s1) by (pose proof (next_ch s) as E; now rewrite Hnext in E).
    assert (Hs1 : s1 = snd (next s)) by now rewrite Hnext.
    subst c'.
    destruct (next_cases s) as [[Hsrc Hn] | (r & n & pre & rest & Hsrc & Hlen & Hn & _ & Hnx & _)].
    + rewrite Hn in Hs1. cbn in Hs1. subst s1.
      exists (set_cursor s eof []). split; [|split].
      * destruct fuel; reflexivity.
      * reflexivity.
      * apply steps_more; [assumption|]. rewrite Hn. apply steps_done.
    + destruct (IH s1) as (s' & Hrun & Hws' & Hsteps).
      * rewrite Hs1, Hnx. cbn. rewrite Hsrc, length_app in Hfuel. lia.
      * exists s'. split; [assumption | split; [assumption|]].
        apply steps_more; [assumption|]. now rewrite <- Hs1.
  - exists s. split; [reflexivity | split; [assumption | apply steps_done]].
Qed.

Lemma scanIdentifier_loop_total (fuel : nat) (s : Scanner) :
  (length (src s) < fuel)%nat ->
  exists s',
    scanIdentifier_loop fuel s = Ok s' /\
    isLetterOrDigit (ch s') = false /\ steps_while isLetterOrDigit s s'.
Proof.
  unfold isLetterOrDigit.
  revert s. induction fuel as [|fuel IH]; intros s Hfuel; [lia|].
  cbn [scanIdentifier_loop].
  destruct (isLetter (ch s) || isDigit (ch s)) eqn:Hid.
  - destruct (next_cases s) as [[Hsrc Hn] | (r & n & pre & rest & Hsrc & Hlen & Hn & _ & Hnx & _)].
    + rewrite Hn. cbn [snd].
      exists (set_cursor s eof []). split; [|split].
      * destruct fuel; reflexivity.
      * reflexivity.
      * apply steps_more; [assumption|]. rewrite Hn. apply steps_done.
    + destruct (IH (snd (next s))) as (s' & Hrun & Hid' & Hsteps).
      * rewrite Hnx. cbn. rewrite Hsrc, length_app in Hfuel. lia.
      * exists s'. split; [assumption | split; [assumption|]].
        now apply steps_more.
  - exists s. split; [reflexivity | split; [assumption | apply steps_done]].
Qed.

Lemma Scan_start_total (s : Scanner) :
  exists s1,
    Scan_start s =
      Ok (ch s1, set_tokPos (set_tokBuf s1 []) (mark s1)) /\
    isWhitespace (ch s1) = false /\
    steps_while isWhitespace (snd (next s)) s1.
Proof.
  unfold Scan_start.
  destruct (next s) as [c0 s0] eqn:Hnext.
  assert (Hc : c0 = ch s0) by (pose proof (next_ch s) as E; now rewrite Hnext in E).
  subst c0. cbn [snd].
  destruct (skipWhitespace_total (loop_fuel s0) s0) as (s1 & Hrun & Hws & Hsteps).
  - unfold loop_fuel. lia.
  - exists s1. rewrite Hrun. cbn. auto.
Qed.

Lemma Scan_token_total (s : Scanner) :
  exists s2,
    Scan_token (ch s) s = Ok (token_of (ch s), set_tokEnd s2 (mark s2)) /\
    nexts s s2 /\
    (isLetter (ch s) = false -> s2 = s) /\
    (isLetter (ch s) = true ->
     steps_while isLetterOrDigit s s2 /\ isLetterOrDigit (ch s2) = false).
Proof.
  unfold Scan_token, token_of.
  destruct (isLetter (ch s)) eqn:Hl.
  - destruct (scanIdentifier_loop_total (loop_fuel s) s) as (s2 & Hrun & Hend & Hsteps).
    + unfold loop_fuel. lia.
    + exists s2. unfold scanIdentifier. rewrite Hrun. cbn.
      assert (Hne : (ch s =? eof) = false).
      { destruct (ch s =? eof) eqn:E; [|reflexivity].
        apply Z.eqb_eq in E. rewrite E, isLetter_eof in Hl. discriminate. }
      rewrite Hne. apply steps_while_nexts in Hsteps as Hn.
      destruct (isDigit (ch s)); repeat split; auto; discriminate.
  - exists s. cbn.
    destruct (isDigit (ch s)); repeat split; auto using nexts_refl; discriminate.
Qed.

(** ** What a call of [Scan] does *)

Lemma cursor_ok_mark (s : Scanner) :
  cursor_ok s ->
  0 <= mark s <= Offset (pos s) /\
  Offset (pos s) <= Z.of_nat (length (srcBytes s)).
Proof.
  intros Hc. pose proof (cursor_ok_length s Hc) as Hlen.
  destruct Hc as [_ Hl]. unfold mark. lia.
Qed.

(** [Scan] always returns.  It reads characters up to [s1], whose current
    character is the first one that is not white space, records the start
    of the token, reads on to [s2] and records the end of the token. *)
Lemma Scan_spec (s : Scanner) :
  cursor_ok s ->
  exists s1 s2 lit,
    nexts (snd (next s)) s1 /\ isWhitespace (ch s1) = false /\
    nexts (set_tokPos (set_tokBuf s1 []) (mark s1)) s2 /\
    cursor_ok s1 /\ cursor_ok s2 /\
    Scan_start s = Ok (ch s1, set_tokPos (set_tokBuf s1 []) (mark s1)) /\
    0 <= mark s1 <= mark s2 /\
    slice (srcBytes s) (mark s1) (mark s2) = Ok lit /\
    Scan s = Ok (token_of (ch s1), lit, Scan_final s2 lit) /\
    Scan_token (ch s1) (set_tokPos (set_tokBuf s1 []) (mark s1)) =
      Ok (token_of (ch s1), set_tokEnd s2 (mark s2)) /\
    (isLetter (ch s1) = false ->
     s2 = set_tokPos (set_tokBuf s1 []) (mark s1)) /\
    steps_while isWhitespace (snd (next s)) s1 /\
    (isLetter (ch s1) = true ->
     steps_while isLetterOrDigit (set_tokPos (set_tokBuf s1 []) (mark s1)) s2 /\
     isLetterOrDigit (ch s2) = false).
Proof.
  intros Hc.
  destruct (Scan_start_total s) as (s1 & Hstart & Hws & Hsteps1w).
  pose proof (steps_while_nexts _ _ _ Hsteps1w) as Hsteps1.
  set (s1' := set_tokPos (set_tokBuf s1 []) (mark s1)) in *.
  destruct (Scan_token_total s1') as (s2 & Htok & Hsteps2 & Hnl & Hl).
  pose proof (nexts_next_step _ _ Hsteps1) as N1.
  pose proof (nexts_next_step _ _ Hsteps2) as N2.
  pose proof (next_next_step s) as N0.
  assert (Hc1 : cursor_ok s1) by (apply N1, N0, Hc).
  assert (Hc1' : cursor_ok s1') by exact Hc1.
  assert (Hc2 : cursor_ok s2) by (apply N2, Hc1').
  assert (Hm : mark s1 <= mark s2) by (apply (step_mark _ _ N2 Hc1')).
  pose proof (cursor_ok_mark s1 Hc1) as Hm1.
  pose proof (cursor_ok_mark s2 Hc2) as Hm2.
  assert (Hsb : srcBytes s2 = srcBytes s).
  { rewrite (step_srcBytes _ _ N2). cbn.
    rewrite (step_srcBytes _ _ N1). apply (step_srcBytes _ _ N0). }
  assert (Hslice : slice (srcBytes s) (mark s1) (mark s2) =
                   Ok (firstn (Z.to_nat (mark s2 - mark s1))
                              (skipn (Z.to_nat (mark s1)) (srcBytes s)))).
  { apply slice_ok; [lia | rewrite <- Hsb; lia]. }
  exists s1, s2, (firstn (Z.to_nat (mark s2 - mark s1))
                         (skipn (Z.to_nat (mark s1)) (srcBytes s))).
  split; [assumption|]. split; [assumption|]. split; [assumption|].
  split; [assumption|]. split; [assumption|]. split; [assumption|].
  split; [lia|]. split; [assumption|].
  split; [|split; [exact Htok | split; [assumption | split; assumption]]].
  unfold Scan. rewrite Hstart. cbn [bind].
  change (ch s1) with (ch s1') in Htok |- *.
  fold s1'. rewrite Htok. cbn [bind].
  unfold TokenLiteral. cbn [tokPos tokEnd set_tokEnd srcBytes tokBuf].
  rewrite (step_tokPos _ _ N2), (step_tokBuf _ _ N2), Hsb. cbn [tokPos tokBuf s1' set_tokPos set_tokBuf].
  replace (mark s1 <? 0) with false by (symmetry; apply Z.ltb_ge; lia).
  rewrite Hslice. cbn [bind app].
  unfold Scan_final, set_tokPos, set_tokBuf, set_tokEnd.
  cbn [src srcBytes ch lastCharLen pos tokBuf tokPos tokEnd].
  rewrite Hsb. reflexivity.
Qed.

(** ** What a call of [TokenLiteral] does *)

Lemma TokenLiteral_inv (s : Scanner) (lit : list Z) (s' : Scanner) :
  TokenLiteral s = Ok (lit, s') ->
  (tokPos s < 0 /\ lit = [] /\ s' = s) \/
  (exists b,
      0 <= tokPos s /\ slice (srcBytes s) (tokPos s) (tokEnd s) = Ok b /\
      lit = tokBuf s ++ b /\
      s' = set_tokPos (set_tokBuf s (tokBuf s ++ b)) (tokEnd s)).
Proof.
  unfold TokenLiteral. destruct (tokPos s <? 0) eqn:E.
  - intros [= <- <-]. left. apply Z.ltb_lt in E. auto.
  - apply Z.ltb_ge in E.
    destruct (slice (srcBytes s) (tokPos s) (tokEnd s)) as [b| |] eqn:Hs;
      cbn; try discriminate.
    intros [= <- <-]. right. exists b. auto.
Qed.

Lemma TokenLiteral_total (s : Scanner) :
  0 <= tokPos s <= tokEnd s -> tokEnd s <= Z.of_nat (length (srcBytes s)) ->
  exists lit s', TokenLiteral s = Ok (lit, s').
Proof.
  intros Hp He. unfold TokenLiteral.
  replace (tokPos s <? 0) with false by (symmetry; apply Z.ltb_ge; lia).
  rewrite slice_ok by lia. cbn. eauto.
Qed.

(** A second call of [TokenLiteral] returns what the first one returned and
    changes nothing. *)
Lemma TokenLiteral_fixed (s : Scanner) (lit : list Z) (s' : Scanner) :
  TokenLiteral s = Ok (lit, s') -> TokenLiteral s' = Ok (lit, s').
Proof.
  intros HT.
  destruct (TokenLiteral_inv _ _ _ HT) as [(Hneg & -> & ->) | (b & Hpos & Hs & -> & ->)].
  - assumption.
  - apply slice_inv in Hs. destruct Hs as (Hlo & Hhi & _).
    unfold TokenLiteral. cbn [tokPos tokEnd srcBytes tokBuf set_tokPos set_tokBuf].
    replace (tokEnd s <? 0) with false by (symmetry; apply Z.ltb_ge; lia).
    rewrite slice_empty by lia. cbn [bind].
    rewrite app_nil_r. reflexivity.
Qed.

(** [Scan] ends with a call of [TokenLiteral]. *)
Lemma Scan_inv (s : Scanner) (tok : Token) (lit : list Z) (s' : Scanner) :
  Scan s = Ok (tok, lit, s') ->
  exists c m e,
    Scan_start s = Ok (c, m) /\ Scan_token c m = Ok (tok, e) /\
    TokenLiteral e = Ok (lit, s').
Proof.
  unfold Scan.
  destruct (Scan_start s) as [[c m]| |] eqn:E1; cbn [bind]; try discriminate.
  destruct (Scan_token c m) as [[tok' e]| |] eqn:E2; cbn [bind]; try discriminate.
  destruct (TokenLiteral e) as [[lit' s'']| |] eqn:E3; cbn [bind]; try discriminate.
  intros [= <- <- <-]. exists c, m, e. auto.
Qed.

(** ** The invariant of the reachable states *)

Lemma inv_newScanner (input : list Z) : inv (newScanner input).
Proof.
  repeat split; cbn; try lia. exists []. auto.
Qed.

Lemma inv_Scan (s : Scanner) (tok : Token) (lit : list Z) (s' : Scanner) :
  inv s -> Scan s = Ok (tok, lit, s') ->
  inv s' /\ srcBytes s' = srcBytes s /\ tokPos s' = tokEnd s'.
Proof.
  intros [Hc _] HS.
  destruct (Scan_spec s Hc)
    as (s1 & s2 & lit' & N1 & _ & N2 & Hc1 & Hc2 & _ & Hm & _ & HS' & _).
  rewrite HS in HS'. injection HS' as -> -> ->.
  pose proof (cursor_ok_mark s2 Hc2) as Hm2.
  split; [split|split].
  - exact Hc2.
  - unfold span_ok, Scan_final. cbn. lia.
  - cbn. rewrite (step_srcBytes _ _ (nexts_next_step _ _ N2)). cbn.
    rewrite (step_srcBytes _ _ (nexts_next_step _ _ N1)).
    apply (step_srcBytes _ _ (next_next_step s)).
  - reflexivity.
Qed.

Lemma inv_TokenLiteral (s : Scanner) (lit : list Z) (s' : Scanner) :
  inv s -> TokenLiteral s = Ok (lit, s') ->
  inv s' /\ srcBytes s' = srcBytes s /\
  (tokPos s = tokEnd s -> tokPos s' = tokEnd s').
Proof.
  intros Hi HT.
  destruct (TokenLiteral_inv _ _ _ HT) as [(Hneg & -> & ->) | (b & Hpos & Hs & -> & ->)].
  - auto.
  - destruct Hi as [Hc [Hp He]]. repeat split; cbn; auto; try lia; apply Hc.
Qed.

Lemma reachable_inv (input : list Z) (s : Scanner) :
  reachable input s ->
  inv s /\ srcBytes s = input /\ tokPos s = tokEnd s.
Proof.
  induction 1 as [| s tok lit s' _ IH HS | s lit s' _ IH HT].
  - split; [apply inv_newScanner | split; reflexivity].
  - destruct IH as (Hi & Hsb & _).
    destruct (inv_Scan _ _ _ _ Hi HS) as (Hi' & Hsb' & Heq).
    split; [assumption | split; [congruence | assumption]].
  - destruct IH as (Hi & Hsb & Heq).
    destruct (inv_TokenLiteral _ _ _ Hi HT) as (Hi' & Hsb' & Heq').
    split; [assumption | split; [congruence | auto]].
Qed.

Lemma NewLexer_cases (r : Reader) :
  (exists err, reader_err r = Some err /\ NewLexer r = (None, Some err)) \/
  (reader_err r = None /\
   NewLexer r = (Some (newScanner (reader_data r)), None)).
Proof.
  unfold NewLexer, ReadAll. destruct (reader_err r) as [err|]; eauto.
Qed.

(** ** The claims *)

(** C9.  Whatever the input and whatever calls of [Scan] and [TokenLiteral]
    a client has made, the span satisfies
    [0 <= tokPos <= tokEnd <= len(srcBytes)], also at the call of
    [TokenLiteral] inside [Scan], and the next call of [Scan] or of
    [TokenLiteral] returns: it neither panics nor loops. *)
Theorem Scan_TokenLiteral_never_panic (input : list Z) (s : Scanner) :
  reachable input s ->
  (0 <= tokPos s <= tokEnd s /\ tokEnd s <= Z.of_nat (length (srcBytes s))) /\
  (exists lit s', TokenLiteral s = Ok (lit, s')) /\
  (exists c m tok e lit s',
      Scan_start s = Ok (c, m) /\ Scan_token c m = Ok (tok, e) /\
      (0 <= tokPos e <= tokEnd e /\
       tokEnd e <= Z.of_nat (length (srcBytes e))) /\
      TokenLiteral e = Ok (lit, s') /\
      Scan s = Ok (tok, lit, s')).
Proof.
  intros Hr. destruct (reachable_inv _ _ Hr) as ([Hc [Hp He]] & _ & _).
  pose proof (cursor_ok_mark s Hc) as Hm.
  assert (Hb : 0 <= tokPos s <= tokEnd s /\
               tokEnd s <= Z.of_nat (length (srcBytes s))) by lia.
  split; [exact Hb|]. split; [apply TokenLiteral_total; lia|].
  destruct (Scan_spec s Hc)
    as (s1 & s2 & lit & N1 & _ & N2 & Hc1 & Hc2 & Hstart & Hm12 & Hsl & HS & Htok & _).
  destruct (Scan_inv _ _ _ _ HS) as (c & m & e & Hstart' & Htok' & HT).
  rewrite Hstart in Hstart'. injection Hstart' as <- <-.
  rewrite Htok in Htok'. injection Htok' as <-.
  exists (ch s1), (set_tokPos (set_tokBuf s1 []) (mark s1)), (token_of (ch s1)),
    (set_tokEnd s2 (mark s2)), lit, (Scan_final s2 lit).
  repeat split; try assumption.
  - cbn. rewrite (step_tokPos _ _ (nexts_next_step _ _ N2)). cbn. lia.
  - cbn. rewrite (step_tokPos _ _ (nexts_next_step _ _ N2)). cbn. lia.
  - cbn. pose proof (cursor_ok_mark s2 Hc2). lia.
Qed.

(** C4.  Of two calls of [Scan] in a row, the second records a start of
    token ([tokPos]) at or after the end of token ([tokEnd]) that the first
    one recorded; the starts of token of the two calls are in order and the
    offset of the cursor never decreases. *)
Theorem Scan_monotone (input : list Z) (s : Scanner) :
  reachable input s ->
  exists c1 m1 tok1 lit1 s1 c2 m2 tok2 lit2 s2,
    Scan_start s = Ok (c1, m1) /\ Scan s = Ok (tok1, lit1, s1) /\
    Scan_start s1 = Ok (c2, m2) /\ Scan s1 = Ok (tok2, lit2, s2) /\
    tokEnd s1 <= tokPos m2 /\
    tokPos m1 <= tokPos m2 /\
    Offset (pos s) <= Offset (pos s1) <= Offset (pos s2).
Proof.
  intros Hr. destruct (reachable_inv _ _ Hr) as ([Hc _] & _ & _).
  destruct (Scan_spec s Hc)
    as (a1 & a2 & lit1 & N1 & _ & N2 & Hca1 & Hca2 & Hstart1 & Hm1 & _ & HS1 & _).
  assert (Hcf : cursor_ok (Scan_final a2 lit1)) by exact Hca2.
  destruct (Scan_spec _ Hcf)
    as (b1 & b2 & lit2 & M1 & _ & M2 & Hcb1 & Hcb2 & Hstart2 & Hm2 & _ & HS2 & _).
  do 10 eexists.
  split; [exact Hstart1|]. split; [exact HS1|].
  split; [exact Hstart2|]. split; [exact HS2|].
  pose proof (next_next_step s) as S0.
  pose proof (nexts_next_step _ _ N1) as S1.
  pose proof (nexts_next_step _ _ N2) as S2.
  pose proof (next_next_step (Scan_final a2 lit1)) as T0.
  pose proof (nexts_next_step _ _ M1) as T1.
  pose proof (nexts_next_step _ _ M2) as T2.
  assert (Hmk : mark a2 <= mark b1).
  { pose proof (step_mark _ _ T0 Hcf) as E0.
    pose proof (step_mark _ _ T1 (step_cursor _ _ T0 Hcf)) as E1.
    change (mark (Scan_final a2 lit1)) with (mark a2) in E0. lia. }
  pose proof (step_Offset _ _ S0). pose proof (step_Offset _ _ S1).
  pose proof (step_Offset _ _ S2). pose proof (step_Offset _ _ T0).
  pose proof (step_Offset _ _ T1). pose proof (step_Offset _ _ T2).
  cbn in *. lia.
Qed.

(** C5, as the code has it.  [TokenLiteral] never changes [tokEnd], the
    cursor or the input, and it only appends to [tokBuf]; but unless
    [tokPos] is negative it moves [tokPos] to [tokEnd], so the span is kept
    only where it was already empty.  It is empty in every state a client
    can call [TokenLiteral] in, so there the span is unchanged. *)
Theorem TokenLiteral_span (s : Scanner) (lit : list Z) (s' : Scanner) :
  TokenLiteral s = Ok (lit, s') ->
  tokEnd s' = tokEnd s /\
  tokPos s' = (if tokPos s <? 0 then tokPos s else tokEnd s) /\
  (src s' = src s /\ srcBytes s' = srcBytes s /\ ch s' = ch s /\
   lastCharLen s' = lastCharLen s /\ pos s' = pos s) /\
  (exists b, tokBuf s' = tokBuf s ++ b) /\
  (forall input, reachable input s -> tokPos s' = tokPos s).
Proof.
  intros HT.
  destruct (TokenLiteral_inv _ _ _ HT) as [(Hneg & -> & ->) | (b & Hpos & Hs & -> & ->)].
  - replace (tokPos s <? 0) with true by (symmetry; apply Z.ltb_lt; lia).
    repeat split. exists []. now rewrite app_nil_r.
  - replace (tokPos s <? 0) with false by (symmetry; apply Z.ltb_ge; lia).
    cbn. repeat split.
    + now exists b.
    + intros input Hr. destruct (reachable_inv _ _ Hr) as (_ & _ & Heq).
      now symmetry.
Qed.

(** C6.  After a call of [Scan], a call of [TokenLiteral] returns the
    literal that [Scan] returned and leaves the state as it is, so a second
    call returns the same string; the literal is the slice of the input
    between the start and the end of token recorded by [Scan], and any state
    with the same input, [tokBuf] and span gives it, whatever its cursor. *)
Theorem TokenLiteral_idempotent (input : list Z) (s : Scanner) :
  reachable input s ->
  exists c m tok lit s1,
    Scan_start s = Ok (c, m) /\ Scan s = Ok (tok, lit, s1) /\
    TokenLiteral s1 = Ok (lit, s1) /\
    slice input (tokPos m) (tokEnd s1) = Ok lit /\
    (forall u,
        srcBytes u = srcBytes s1 -> tokBuf u = tokBuf s1 ->
        tokPos u = tokPos s1 -> tokEnd u = tokEnd s1 ->
        exists u', TokenLiteral u = Ok (lit, u')).
Proof.
  intros Hr. destruct (reachable_inv _ _ Hr) as ([Hc _] & Hsb & _).
  destruct (Scan_spec s Hc)
    as (s1 & s2 & lit & N1 & _ & N2 & Hc1 & Hc2 & Hstart & Hm & Hsl & HS & _).
  destruct (Scan_inv _ _ _ _ HS) as (c & m & e & _ & _ & HT).
  pose proof (TokenLiteral_fixed _ _ _ HT) as Hfix.
  exists (ch s1), (set_tokPos (set_tokBuf s1 []) (mark s1)), (token_of (ch s1)),
    lit, (Scan_final s2 lit).
  split; [assumption|]. split; [assumption|]. split; [assumption|].
  split; [now rewrite <- Hsb|].
  intros u Hu1 Hu2 Hu3 Hu4. revert Hfix. unfold TokenLiteral.
  rewrite Hu1, Hu2, Hu3, Hu4.
  destruct (tokPos (Scan_final s2 lit) <? 0).
  - intros E. apply (f_equal (fun r => match r with Ok (l, _) => l | _ => [] end)) in E.
    cbn in E. subst lit. eauto.
  - destruct (slice (srcBytes (Scan_final s2 lit)) (tokPos (Scan_final s2 lit))
                    (tokEnd (Scan_final s2 lit))); cbn [bind]; try discriminate.
    intros E. apply (f_equal (fun r => match r with Ok (l, _) => l | _ => [] end)) in E.
    cbn [tokBuf set_tokPos set_tokBuf] in E.
    unfold set_tokPos, set_tokBuf. cbn [tokBuf]. rewrite E. eauto.
Qed.



Lemma position_of_Line (consumed : list Z) :
  Line (position_of consumed) = Z.of_nat (count_occ Z.eq_dec consumed 10).
Proof.
  unfold position_of.
  assert (G : forall p, Line (fold_left advance_byte consumed p) =
                        Line p + Z.of_nat (count_occ Z.eq_dec consumed 10)).
  { induction consumed as [|b l IH]; intros p; cbn [fold_left count_occ].
    - lia.
    - rewrite IH. unfold advance_byte.
      destruct (Z.eq_dec b 10) as [->|Hb].
      + cbn. lia.
      + replace (b =? 10) with false by (symmetry; now apply Z.eqb_neq).
        cbn. lia. }
  rewrite G. cbn. lia.
Qed.

Lemma cursor_ok_position (s : Scanner) :
  cursor_ok s ->
  pos s = position_of (firstn (Z.to_nat (Offset (pos s))) (srcBytes s)).
Proof.
  intros [(consumed & Hsplit & Hpos) _].
  rewrite Hsplit, Hpos at 1. f_equal.
  rewrite Hpos, position_of_Offset, Nat2Z.id.
  rewrite firstn_app, Nat.sub_diag, firstn_all. cbn. now rewrite app_nil_r.
Qed.

(** C7, as the code has it.  One call of [next] never decreases the
    offset; at the end of the input it leaves the position as it is;
    otherwise it consumes a character of one to four bytes, adds its width
    to the offset, and either the character is a line feed, the line grows
    by one and the column is 0, or the line is unchanged and the column
    grows by the width.  The line is a count from 0: in every state a client
    can reach, the position is that of the bytes read so far, the line being
    the number of line feeds among them. *)
Theorem position_invariant (s : Scanner) :
  (let s' := snd (next s) in
   Offset (pos s) <= Offset (pos s') /\
   (src s = [] -> pos s' = pos s) /\
   (src s <> [] ->
    exists width,
      1 <= width <= 4 /\
      Z.of_nat (length (src s)) = Z.of_nat (length (src s')) + width /\
      lastCharLen s' = width /\
      Offset (pos s') = Offset (pos s) + width /\
      (if ch s' =? 10
       then Line (pos s') = Line (pos s) + 1 /\ Column (pos s') = 0
       else Line (pos s') = Line (pos s) /\
            Column (pos s') = Column (pos s) + width))) /\
  (forall input, reachable input s ->
     let consumed := firstn (Z.to_nat (Offset (pos s))) input in
     pos s = position_of consumed /\
     Line (pos s) = Z.of_nat (count_occ Z.eq_dec consumed 10) /\
     (forall tok lit s', Scan s = Ok (tok, lit, s') ->
                         Offset (pos s) <= Offset (pos s')) /\
     (forall lit s', TokenLiteral s = Ok (lit, s') -> pos s' = pos s)).
Proof.
  split.
  - cbn zeta.
    destruct (next_cases s)
      as [[Hsrc ->] | (r & n & pre & rest & Hsrc & Hlen & Hn & _ & -> & _)];
      cbn [snd].
    + cbn. split; [lia|]. split; [reflexivity|]. intros Hne. now elim Hne.
    + cbn. split; [lia|]. split.
      * intros E. rewrite E in Hsrc. destruct pre; [cbn in Hlen; lia | discriminate].
      * intros _. exists n. rewrite Hsrc, length_app.
        repeat split; try lia; destruct (r =? 10); cbn; auto.
  - intros input Hr. cbn zeta.
    destruct (reachable_inv _ _ Hr) as ([Hc _] & Hsb & _).
    pose proof (cursor_ok_position s Hc) as Hp. rewrite Hsb in Hp.
    split; [exact Hp|]. split; [rewrite Hp at 1; apply position_of_Line|].
    split.
    + intros tok lit s' HS.
      destruct (Scan_spec s Hc)
        as (s1 & s2 & lit' & N1 & _ & N2 & _ & _ & _ & _ & _ & HS' & _).
      rewrite HS in HS'. injection HS' as _ _ ->.
      pose proof (step_Offset _ _ (next_next_step s)).
      pose proof (step_Offset _ _ (nexts_next_step _ _ N1)).
      pose proof (step_Offset _ _ (nexts_next_step _ _ N2)).
      cbn in *. lia.
    + intros lit s' HT.
      destruct (TokenLiteral_inv _ _ _ HT) as [(_ & _ & ->) | (b & _ & _ & _ & ->)];
        reflexivity.
Qed.

(** ** Scanning white space, an identifier, the end of the input *)

Lemma next_below_RuneSelf (s : Scanner) (b : Z) (tl : list Z) :
  src s = b :: tl -> b < RuneSelf -> next s = (b, after_char s b 1 tl).
Proof.
  intros Hsrc Hb. unfold next, ReadRune. rewrite Hsrc.
  replace (b <? RuneSelf) with true by (symmetry; apply Z.ltb_lt; lia).
  cbn. unfold after_char. destruct (b =? 10); reflexivity.
Qed.

Lemma next_rune (s : Scanner) :
  ch (snd (next s)) = rr_rune (fst (ReadRune (src s))).
Proof.
  destruct (next_cases s)
    as [[Hsrc ->] | (r & n & pre & rest & _ & _ & _ & -> & -> & _)].
  - rewrite Hsrc. reflexivity.
  - reflexivity.
Qed.

Lemma steps_while_stop (P : Z -> bool) (s s' : Scanner) :
  steps_while P s s' -> P (ch s) = false -> s' = s.
Proof. destruct 1; [reflexivity | congruence]. Qed.

Lemma steps_while_go (P : Z -> bool) (s s' : Scanner) :
  steps_while P s s' -> P (ch s) = true -> P (ch s') = false ->
  steps_while P (snd (next s)) s'.
Proof. destruct 1; [congruence | auto]. Qed.

Lemma isWhitespace_below_RuneSelf (b : Z) :
  isWhitespace b = true -> b < RuneSelf /\ b <> eof.
Proof.
  unfold isWhitespace, RuneSelf, eof. intros Hb.
  repeat (apply orb_prop in Hb; destruct Hb as [Hb|Hb]);
    apply Z.eqb_eq in Hb; lia.
Qed.

(** The loop that skips white space stops at the first character that is
    not white space: after the bytes [ws] of white space it is in the state
    that [next] leaves when called with [buf] unread. *)
Lemma skip_prefix (ws : list Z) :
  forall (s s1 : Scanner) (buf : list Z),
    src s = ws ++ buf -> forallb isWhitespace ws = true ->
    isWhitespace (rr_rune (fst (ReadRune buf))) = false ->
    steps_while isWhitespace (snd (next s)) s1 ->
    isWhitespace (ch s1) = false ->
    exists s0,
      s1 = snd (next s0) /\ src s0 = buf /\
      Offset (pos s0) = Offset (pos s) + Z.of_nat (length ws) /\
      (ws = [] -> s0 = s) /\ (ws <> [] -> lastCharLen s0 = 1).
Proof.
  induction ws as [|b ws IH]; intros s s1 buf Hsrc Hws Hbuf Hsteps Hstop.
  - cbn in Hsrc. exists s.
    split; [|repeat split; auto; cbn; try lia; congruence].
    apply (steps_while_stop _ _ _ Hsteps). now rewrite next_rune, Hsrc.
  - cbn in Hsrc, Hws. apply andb_prop in Hws. destruct Hws as [Hb Hws].
    destruct (isWhitespace_below_RuneSelf b Hb) as [Hlt _].
    rewrite (next_below_RuneSelf s b (ws ++ buf) Hsrc Hlt) in Hsteps.
    cbn [snd] in Hsteps.
    apply steps_while_go in Hsteps; [|exact Hb|exact Hstop].
    destruct (IH (after_char s b 1 (ws ++ buf)) s1 buf eq_refl Hws Hbuf Hsteps Hstop)
      as (s0 & Hs1 & Hsrc0 & Hoff & Hnil & Hcons).
    exists s0. split; [assumption|]. split; [assumption|].
    split; [cbn in Hoff; cbn [length]; lia|].
    split; [discriminate|]. intros _.
    destruct ws as [|b' ws'].
    + rewrite (Hnil eq_refl). reflexivity.
    + apply Hcons. discriminate.
Qed.

(** A call of [Scan] with no bytes unread returns [EOF] and an empty
    literal. *)
Lemma Scan_at_end (s : Scanner) :
  src s = [] -> cursor_ok s ->
  Scan s = Ok (EOF, [],
               mkScanner [] (srcBytes s) eof (lastCharLen s) (pos s)
                         [] (mark s) (mark s)).
Proof.
  intros Hsrc Hc. pose proof (cursor_ok_mark s Hc) as Hm.
  unfold Scan, Scan_start. rewrite (next_eof s Hsrc).
  cbn [loop_fuel set_cursor src length skipWhitespace isWhitespace eof
       Z.eqb orb bind].
  unfold Scan_token. rewrite isLetter_eof, isDigit_eof. cbn [bind Z.eqb eof].
  unfold TokenLiteral, set_tokEnd, set_tokPos, set_tokBuf, set_cursor.
  cbn [tokPos tokEnd tokBuf srcBytes pos lastCharLen src ch].
  fold (mark s).
  replace (mark s <? 0) with false by (symmetry; apply Z.ltb_ge; lia).
  rewrite slice_empty by lia. reflexivity.
Qed.

Lemma Scan_n_fixed (s : Scanner) (tok : Token) (lit : list Z) (n : nat) :
  Scan s = Ok (tok, lit, s) -> Scan_n n s = Ok (repeat (tok, lit) n, s).
Proof.
  intros HS. induction n as [|n IH]; [reflexivity|].
  cbn [Scan_n repeat]. rewrite HS. cbn [bind]. rewrite IH. reflexivity.
Qed.

Lemma slice_empty_inv (b : list Z) (lo : Z) (l : list Z) :
  slice b lo lo = Ok l -> l = [].
Proof.
  intros Hs. apply slice_inv in Hs. destruct Hs as (_ & _ & ->).
  now rewrite Z.sub_diag.
Qed.

(** C3.  On an input of white space only, the empty input included, the
    first call of [Scan] returns [EOF] with an empty literal and leaves the
    cursor at the end of the input; every later call returns the same and
    leaves the state as it is, so that any number of calls returns only
    [EOF] tokens with empty literals and never an [IDENT]. *)
Theorem Scan_whitespace_only (input : list Z) :
  forallb isWhitespace input = true ->
  exists s1,
    Scan (newScanner input) = Ok (EOF, [], s1) /\
    Scan s1 = Ok (EOF, [], s1) /\
    src s1 = [] /\ Offset (pos s1) = Z.of_nat (length input) /\
    (forall n, Scan_n (S n) (newScanner input) =
               Ok (repeat (EOF, []) (S n), s1)) /\
    (IDENT <> EOF ->
     forall n toks s', Scan_n n (newScanner input) = Ok (toks, s') ->
                       ~ In IDENT (map fst toks)).
Proof.
  intros Hws.
  pose proof (inv_newScanner input) as [Hc _].
  destruct (Scan_spec _ Hc)
    as (s1 & s2 & lit & _ & Hstop & _ & Hc1 & Hc2 & _ & _ & Hsl & HS & _ & Hnl & Hw & _).
  destruct (skip_prefix input (newScanner input) s1 []) as (s0 & Hs1 & Hsrc0 & Hoff & _).
  { cbn. now rewrite app_nil_r. }
  { assumption. }
  { reflexivity. }
  { assumption. }
  { assumption. }
  rewrite (next_eof s0 Hsrc0) in Hs1. cbn [snd] in Hs1.
  assert (Hch : ch s1 = eof) by now subst s1.
  assert (Hsrc1 : src s1 = []) by now subst s1.
  assert (Hoff1 : Offset (pos s1) = Z.of_nat (length input)).
  { subst s1. cbn in *. lia. }
  rewrite Hch in *. specialize (Hnl isLetter_eof). subst s2.
  apply slice_empty_inv in Hsl. subst lit.
  change (token_of eof) with EOF in HS.
  set (F := Scan_final (set_tokPos (set_tokBuf s1 []) (mark s1)) []) in *.
  assert (HF : Scan F = Ok (EOF, [], F)).
  { rewrite (Scan_at_end F) by (try exact Hsrc1; exact Hc2).
    unfold F, Scan_final. cbn. rewrite Hsrc1, Hch. reflexivity. }
  assert (Hn : forall n, Scan_n (S n) (newScanner input) =
                         Ok (repeat (EOF, []) (S n), F)).
  { intros n. cbn [Scan_n repeat]. rewrite HS. cbn [bind].
    rewrite (Scan_n_fixed F EOF [] n HF). reflexivity. }
  exists F. split; [exact HS|]. split; [exact HF|].
  split; [exact Hsrc1|]. split; [exact Hoff1|]. split; [exact Hn|].
  intros Hne n toks s' Hrun Hin.
  destruct n as [|n].
  - cbn in Hrun. injection Hrun as <- _. exact Hin.
  - rewrite Hn in Hrun. injection Hrun as <- _.
    apply in_map_iff in Hin. destruct Hin as ([t l] & Ht & Hin).
    apply (repeat_spec (S n)) in Hin. cbn in Ht. congruence.
Qed.

(** An ASCII digit is not a letter, not white space and not [eof]. *)
Lemma ascii_digit_unclassified (c : Z) :
  48 <= c <= 57 ->
  isDigit c = true /\ isLetter c = false /\ isWhitespace c = false /\ c <> eof.
Proof.
  intros Hc. unfold isDigit, isLetter, isWhitespace, eof.
  replace (48 <=? c) with true by (symmetry; apply Z.leb_le; lia).
  replace (c <=? 57) with true by (symmetry; apply Z.leb_le; lia).
  replace (97 <=? c) with false by (symmetry; apply Z.leb_gt; lia).
  replace (65 <=? c) with false by (symmetry; apply Z.leb_gt; lia).
  replace (0x80 <=? c) with false by (symmetry; apply Z.leb_gt; lia).
  replace (c =? 95) with false by (symmetry; apply Z.eqb_neq; lia).
  replace (c =? 32) with false by (symmetry; apply Z.eqb_neq; lia).
  replace (c =? 9) with false by (symmetry; apply Z.eqb_neq; lia).
  replace (c =? 10) with false by (symmetry; apply Z.eqb_neq; lia).
  replace (c =? 13) with false by (symmetry; apply Z.eqb_neq; lia).
  repeat split; try reflexivity; lia.
Qed.

(** C8, as the code has it.  When the first character [r] after the white
    space is not a letter and not the character 0 (a digit that is not a
    letter, or a character of no class), [Scan] consumes it and returns the
    zero value of [Token] with an empty literal, and no error: the result
    differs from [EOF] and from [IDENT] exactly when the zero value of
    [Token] does. *)
Theorem Scan_unclassified
  (ws buf : list Z) (r n : Z) (rest : list Z) :
  forallb isWhitespace ws = true ->
  ReadRune buf = (mkReadRune r n false, rest) ->
  isWhitespace r = false -> isLetter r = false -> r <> eof ->
  exists s',
    Scan (newScanner (ws ++ buf)) = Ok (Token_zero, [], s') /\
    src s' = rest /\ ch s' = r /\
    Offset (pos s') = Z.of_nat (length ws) + n /\
    tokPos s' = Z.of_nat (length ws) /\ tokEnd s' = Z.of_nat (length ws).
Proof.
  intros Hws HR Hnw Hnl Hne.
  pose proof (inv_newScanner (ws ++ buf)) as [Hc _].
  destruct (Scan_spec _ Hc)
    as (s1 & s2 & lit & _ & Hstop & _ & Hc1 & Hc2 & _ & _ & Hsl & HS & _ & Hs2 & Hw & _).
  destruct (skip_prefix ws (newScanner (ws ++ buf)) s1 buf)
    as (s0 & Hs1 & Hsrc0 & Hoff & _); try assumption; try reflexivity.
  { now rewrite HR. }
  rewrite <- Hsrc0 in HR. rewrite (next_ReadRune s0 r n rest HR) in Hs1.
  cbn [snd] in Hs1.
  assert (Hch : ch s1 = r) by now subst s1.
  rewrite Hch in *. specialize (Hs2 Hnl). subst s2.
  apply slice_empty_inv in Hsl. subst lit.
  assert (Htok : token_of r = Token_zero).
  { unfold token_of. rewrite Hnl.
    replace (r =? eof) with false by (symmetry; now apply Z.eqb_neq).
    reflexivity. }
  rewrite Htok in HS.
  eexists. split; [exact HS|].
  subst s1. unfold Scan_final, mark. cbn in *. repeat split; lia.
Qed.

(** ** An identifier that ends the input *)

Lemma isLetterOrDigit_eof : isLetterOrDigit eof = false.
Proof. reflexivity. Qed.

Lemma isLetter_not_whitespace (c : Z) :
  isLetter c = true -> isWhitespace c = false.
Proof.
  intros Hl. destruct (isWhitespace c) eqn:Hw; [|reflexivity].
  unfold isWhitespace in Hw.
  assert (Hc : c = 32 \/ c = 9 \/ c = 10 \/ c = 13).
  { repeat (apply orb_prop in Hw; destruct Hw as [Hw|Hw]);
      apply Z.eqb_eq in Hw; lia. }
  destruct Hc as [-> | [-> | [-> | ->]]]; discriminate.
Qed.

Lemma letters_digits_steps (fuel : nat) :
  forall (buf : list Z) (w w' : Z) (s s2 : Scanner),
    letters_digits fuel buf w = Some w' ->
    src s = buf -> lastCharLen s = w -> isLetterOrDigit (ch s) = true ->
    steps_while isLetterOrDigit s s2 -> isLetterOrDigit (ch s2) = false ->
    src s2 = [] /\ lastCharLen s2 = w' /\
    Offset (pos s2) = Offset (pos s) + Z.of_nat (length buf) /\
    (1 <= w <= 4 -> 1 <= w' <= 4).
Proof.
  assert (Hnil : forall (w w' : Z) (s s2 : Scanner),
             Some w = Some w' -> src s = [] -> lastCharLen s = w ->
             isLetterOrDigit (ch s) = true ->
             steps_while isLetterOrDigit s s2 ->
             isLetterOrDigit (ch s2) = false ->
             src s2 = [] /\ lastCharLen s2 = w' /\
             Offset (pos s2) = Offset (pos s) + 0 /\
             (1 <= w <= 4 -> 1 <= w' <= 4)).
  { intros w w' s s2 [= <-] Hsrc Hw Hch Hsteps Hstop.
    apply steps_while_go in Hsteps; [|assumption|assumption].
    rewrite (next_eof s Hsrc) in Hsteps. cbn [snd] in Hsteps.
    apply steps_while_stop in Hsteps; [|apply isLetterOrDigit_eof].
    subst s2. cbn. repeat split; auto; lia. }
  induction fuel as [|fuel IH]; intros buf w w' s s2 Hld Hsrc Hw Hch Hsteps Hstop.
  - destruct buf; [|discriminate]. cbn [length]. now apply (Hnil w w' s s2).
  - destruct buf as [|c tl]; [cbn [length]; now apply (Hnil w w' s s2)|].
    cbn [letters_digits] in Hld.
    destruct (ReadRune_cons c tl)
      as (r & n & pre & rest & HR & Hsplit & Hlen & Hn & _).
    rewrite HR in Hld. cbn [rr_rune rr_size] in Hld.
    destruct (isLetterOrDigit r) eqn:Hr; [|discriminate].
    apply steps_while_go in Hsteps; [|assumption|assumption].
    rewrite <- Hsrc in HR.
    rewrite (next_ReadRune s r n rest HR) in Hsteps. cbn [snd] in Hsteps.
    destruct (IH rest n w' (after_char s r n rest) s2 Hld eq_refl eq_refl Hr Hsteps Hstop)
      as (E1 & E2 & E3 & E4).
    split; [assumption|]. split; [assumption|]. split; [|intros _; apply E4; lia].
    rewrite E3, Hsplit, length_app. cbn [pos Offset after_char]. lia.
Qed.

(** X10.  What the code does on an identifier that ends the input: it returns
    [IDENT], but the literal stops short of the last character of the
    identifier, because the end of the token is computed from the width of
    the last character read although the read at the end of the input
    consumed nothing.  The next call returns [EOF]. *)
Lemma Scan_identifier_at_end (input : list Z) (w : Z) :
  identifier input = Some w ->
  1 <= w <= 4 /\ w <= Z.of_nat (length input) /\
  exists s1 s2,
    Scan (newScanner input) =
      Ok (IDENT, firstn (Z.to_nat (Z.of_nat (length input) - w)) input, s1) /\
    Scan s1 = Ok (EOF, [], s2).
Proof.
  unfold identifier. intros Hid.
  destruct (ReadRune input) as [rr rest] eqn:HR.
  destruct (rr_err rr) eqn:Herr; [discriminate|].
  destruct (isLetter (rr_rune rr)) eqn:Hl; [|discriminate].
  cbn [negb andb] in Hid.
  destruct rr as [r n e]. cbn in Herr, Hl, Hid. subst e.
  destruct input as [|c tl]; [discriminate|].
  destruct (ReadRune_cons c tl)
    as (r' & n' & pre & rest' & HR' & Hsplit & Hlen & Hn & _).
  rewrite HR in HR'. injection HR' as <- <- <-.
  pose proof (inv_newScanner (c :: tl)) as [Hc _].
  destruct (Scan_spec _ Hc)
    as (s1 & s2 & lit & _ & Hstop & _ & Hc1 & Hc2 & _ & Hm & Hsl & HS & _ & _ & Hw & Hl2).
  change (ReadRune (src (newScanner (c :: tl))) = (mkReadRune r n false, rest)) in HR.
  rewrite (next_ReadRune _ r n rest HR) in Hw. cbn [snd] in Hw.
  apply steps_while_stop in Hw;
    [|cbn [ch after_char]; now apply isLetter_not_whitespace].
  subst s1. cbn [ch after_char] in *.
  destruct (Hl2 Hl) as [Hsteps Hend].
  assert (Hld : isLetterOrDigit r = true)
    by (unfold isLetterOrDigit; now rewrite Hl).
  destruct (letters_digits_steps (length rest) rest n w
              (set_tokPos
                 (set_tokBuf (after_char (newScanner (c :: tl)) r n rest) [])
                 (mark (after_char (newScanner (c :: tl)) r n rest)))
              s2 Hid eq_refl eq_refl Hld Hsteps Hend)
    as (Hsrc2 & Hw2 & Hoff2 & Hwb).
  assert (Htok : token_of r = IDENT).
  { unfold token_of. rewrite Hl.
    destruct (r =? eof) eqn:E; [|reflexivity].
    apply Z.eqb_eq in E. rewrite E, isLetter_eof in Hl. discriminate. }
  assert (Hlen2 : Z.of_nat (length (c :: tl)) = n + Z.of_nat (length rest)).
  { rewrite Hsplit, length_app. lia. }
  assert (Hm1 : mark (after_char (newScanner (c :: tl)) r n rest) = 0).
  { unfold mark. cbn. lia. }
  assert (Hm2 : mark s2 = Z.of_nat (length (c :: tl)) - w).
  { unfold mark. rewrite Hoff2, Hw2. cbn [pos Offset set_tokPos set_tokBuf after_char newScanner Position_zero]. lia. }
  rewrite Hm1, Hm2 in Hsl. apply slice_inv in Hsl. destruct Hsl as (Hb1 & Hb2 & Hlit).
  rewrite Z.sub_0_r in Hlit. cbn [Z.to_nat skipn srcBytes newScanner] in Hlit.
  split; [apply Hwb; lia|]. split; [lia|].
  rewrite Htok, Hlit in HS.
  eexists _, _. split; [exact HS|].
  apply Scan_at_end; [exact Hsrc2 | exact Hc2].
Qed.

(** ** The code at the inputs of the claims *)

(** C1 at the inputs "a" and "ab".  The first call of [Scan] returns
    [IDENT], but with the literal "" for "a" and the literal "a" for "ab":
    the last character of an identifier that ends the input is dropped.  The
    next call returns [EOF]. *)
Theorem Scan_identifier_drops_last_character :
  Scan_n 2 (newScanner (bytes "a")) =
    Ok ([(IDENT, []); (EOF, [])],
        mkScanner [] (bytes "a") eof 1 (mkPosition 1 0 1) [] 0 0) /\
  Scan_n 2 (newScanner (bytes "ab")) =
    Ok ([(IDENT, bytes "a"); (EOF, [])],
        mkScanner [] (bytes "ab") eof 1 (mkPosition 2 0 2) [] 1 1).
Proof. split; vm_compute; reflexivity. Qed.

(** C2 at the input "a\nb", the bytes 97, 10, 98.  The two calls of [Scan]
    return [IDENT] with the literals "a" and ""; they leave the cursor at
    offset 3, line 1, column 1, and [Pos] returns the zero position, not the
    position of the cursor. *)
Theorem Pos_returns_zero_position :
  let s2 := mkScanner [] [97; 10; 98] eof 1 (mkPosition 3 1 1) [] 2 2 in
  Scan_n 2 (newScanner [97; 10; 98]) =
    Ok ([(IDENT, [97]); (IDENT, [])], s2) /\
  pos s2 = mkPosition 3 1 1 /\
  Pos s2 = mkPosition 0 0 0.
Proof. cbv zeta. split; [vm_compute; reflexivity | split; reflexivity]. Qed.

End Properties.

(** ** Further properties of the scanner *)

Section Further.

Context `{Declarations}.

(** X1.  [isWhitespace] accepts the characters of [isSpace] and those of
    [isEndOfLine], and no other. *)
Theorem isWhitespace_isSpace_isEndOfLine (c : Z) :
  isWhitespace c = isSpace c || isEndOfLine c.
Proof.
  unfold isWhitespace, isSpace, isEndOfLine.
  destruct (c =? 32), (c =? 9), (c =? 10), (c =? 13); reflexivity.
Qed.

(** X2.  The classes of characters that [Scan] tells apart do not overlap: a
    white space character is neither a letter nor a digit, an ASCII letter is
    not a digit, and the marker [eof] is in no class, whatever the tables of
    [unicode.IsLetter] and [unicode.IsDigit]. *)
Theorem character_classes_disjoint (c : Z) :
  (isWhitespace c = true -> isLetter c = false /\ isDigit c = false) /\
  (c < 0x80 -> isLetter c = true -> isDigit c = false) /\
  (isWhitespace c = true \/ isLetter c = true \/ isDigit c = true ->
   c <> eof).
Proof.
  split; [|split].
  - intros Hw. unfold isWhitespace in Hw.
    assert (Hc : c = 32 \/ c = 9 \/ c = 10 \/ c = 13).
    { repeat (apply orb_prop in Hw; destruct Hw as [Hw|Hw]);
        apply Z.eqb_eq in Hw; lia. }
    destruct Hc as [-> | [-> | [-> | ->]]]; split; reflexivity.
  - intros Hc Hl. unfold isLetter in Hl. unfold isDigit.
    replace (0x80 <=? c) with false in * by (symmetry; apply Z.leb_gt; lia).
    rewrite andb_false_l, orb_false_r in *.
    destruct ((48 <=? c) && (c <=? 57)) eqn:Hd; [|reflexivity].
    apply andb_prop in Hd. destruct Hd as [H1 H2].
    apply Z.leb_le in H1, H2.
    replace (97 <=? c) with false in Hl by (symmetry; apply Z.leb_gt; lia).
    replace (65 <=? c) with false in Hl by (symmetry; apply Z.leb_gt; lia).
    replace (c =? 95) with false in Hl by (symmetry; apply Z.eqb_neq; lia).
    discriminate.
  - intros Hc ->. destruct Hc as [Hc | [Hc | Hc]]; discriminate.
Qed.

Lemma ReadRune_rune_zero (c : Z) (tl : list Z) :
  rr_rune (fst (ReadRune (c :: tl))) = 0 <-> c = 0.
Proof.
  unfold ReadRune. destruct (c <? RuneSelf) eqn:E.
  - reflexivity.
  - apply Z.ltb_ge in E. unfold RuneSelf in E.
    destruct (DecodeRune c tl) as [r n] eqn:HD. cbn.
    apply DecodeRune_bytes in HD. lia.
Qed.

(** X3.  The character that [next] returns is the one it leaves in [ch], also at
    the end of the input; it is [eof] exactly when no byte is unread or the
    first unread byte is 0.  [next] consumes a prefix of the unread bytes as
    long as the offset advances, and leaves the input and the token fields
    as they are. *)
Theorem next_result (s : Scanner) :
  let c := fst (next s) in
  let s' := snd (next s) in
  c = ch s' /\
  (c = eof <-> src s = [] \/ exists tl, src s = 0 :: tl) /\
  (exists pre,
      src s = pre ++ src s' /\
      Z.of_nat (length pre) = Offset (pos s') - Offset (pos s)) /\
  srcBytes s' = srcBytes s /\ tokBuf s' = tokBuf s /\
  tokPos s' = tokPos s /\ tokEnd s' = tokEnd s.
Proof.
  cbv zeta. split; [apply next_ch|]. split; [|split].
  - rewrite next_ch, next_rune. destruct (src s) as [|c tl].
    + split; [auto | reflexivity].
    + rewrite ReadRune_rune_zero. split.
      * intros ->. right. now exists tl.
      * intros [E | (tl' & E)]; [discriminate | now injection E].
  - destruct (next_cases s)
      as [[Hsrc ->] | (r & n & pre & rest & Hsrc & Hlen & Hn & _ & -> & _)].
    + exists []. cbn. rewrite Hsrc. split; [reflexivity | lia].
    + exists pre. cbn. split; [assumption | lia].
  - destruct (next_next_step s). auto.
Qed.

(** X4.  [scanIdentifier] always returns.  It stops at a character that is
    neither a letter nor a digit, does nothing when the current character
    already is one, never moves the cursor back and leaves the input and the
    token fields as they are. *)
Theorem scanIdentifier_stops (s : Scanner) :
  exists s',
    scanIdentifier s = Ok s' /\
    isLetter (ch s') = false /\ isDigit (ch s') = false /\
    (isLetter (ch s) = false -> isDigit (ch s) = false -> s' = s) /\
    Offset (pos s) <= Offset (pos s') /\
    (length (src s') <= length (src s))%nat /\
    srcBytes s' = srcBytes s /\ tokBuf s' = tokBuf s /\
    tokPos s' = tokPos s /\ tokEnd s' = tokEnd s.
Proof.
  destruct (scanIdentifier_loop_total (loop_fuel s) s) as (s' & Hrun & Hend & Hsteps).
  { unfold loop_fuel. lia. }
  exists s'. split; [exact Hrun|].
  unfold isLetterOrDigit in Hend. apply orb_false_elim in Hend.
  destruct Hend as [Hl Hd].
  split; [exact Hl|]. split; [exact Hd|].
  split.
  - intros Hl0 Hd0. apply (steps_while_stop _ _ _ Hsteps).
    unfold isLetterOrDigit. now rewrite Hl0, Hd0.
  - destruct (nexts_next_step _ _ (steps_while_nexts _ _ _ Hsteps)).
    repeat split; assumption.
Qed.

Lemma cursor_ok_src (s : Scanner) :
  cursor_ok s -> src s = skipn (Z.to_nat (Offset (pos s))) (srcBytes s).
Proof.
  intros [(consumed & Hsplit & Hpos) _].
  rewrite Hsplit at 1. rewrite Hpos, position_of_Offset, Nat2Z.id.
  rewrite skipn_app, Nat.sub_diag, skipn_all. reflexivity.
Qed.

Lemma Scan_consumes (s : Scanner) (tok : Token) (lit : list Z) (s' : Scanner) :
  cursor_ok s -> src s <> [] -> Scan s = Ok (tok, lit, s') ->
  cursor_ok s' /\ srcBytes s' = srcBytes s /\
  Offset (pos s) < Offset (pos s') /\
  (length (src s') < length (src s))%nat /\
  src s' = skipn (Z.to_nat (Offset (pos s') - Offset (pos s))) (src s).
Proof.
  intros Hc Hne HS.
  destruct (Scan_spec s Hc)
    as (s1 & s2 & lit' & N1 & _ & N2 & _ & Hc2 & _ & _ & _ & HS' & _).
  rewrite HS in HS'. injection HS' as _ _ ->.
  pose proof (next_next_step s) as S0.
  pose proof (nexts_next_step _ _ N1) as S1.
  pose proof (nexts_next_step _ _ N2) as S2.
  assert (Hc' : cursor_ok (Scan_final s2 lit')) by exact Hc2.
  assert (Hlt : (length (src (snd (next s))) < length (src s))%nat).
  { destruct (next_cases s)
      as [[Hsrc _] | (r & n & pre & rest & Hsrc & Hlen & Hn & _ & -> & _)].
    - contradiction.
    - cbn. rewrite Hsrc, length_app. lia. }
  pose proof (step_src _ _ S1) as L1. pose proof (step_src _ _ S2) as L2.
  cbn [src set_tokPos set_tokBuf] in L2.
  assert (Hlen : (length (src (Scan_final s2 lit')) < length (src s))%nat)
    by (cbn [src Scan_final]; lia).
  pose proof (cursor_ok_length _ Hc) as E1.
  pose proof (cursor_ok_length _ Hc') as E2.
  assert (Hsb : srcBytes (Scan_final s2 lit') = srcBytes s).
  { cbn [srcBytes Scan_final]. rewrite (step_srcBytes _ _ S2). cbn.
    rewrite (step_srcBytes _ _ S1). apply (step_srcBytes _ _ S0). }
  rewrite Hsb in E2.
  pose proof (cursor_ok_mark _ Hc) as [M1 _].
  split; [exact Hc'|]. split; [exact Hsb|].
  split; [lia|]. split; [exact Hlen|].
  rewrite (cursor_ok_src _ Hc'), (cursor_ok_src _ Hc), Hsb, skipn_skipn.
  f_equal. unfold mark in M1. destruct Hc as [_ Hl]. lia.
Qed.

(** X6.  A call of [Scan] made while bytes are unread consumes at least one of
    them: the offset grows, and the bytes left unread are those that were
    unread before, less the ones the offset moved over. *)
Theorem Scan_progress (input : list Z) (s : Scanner)
  (tok : Token) (lit : list Z) (s' : Scanner) :
  reachable input s -> src s <> [] -> Scan s = Ok (tok, lit, s') ->
  Offset (pos s) < Offset (pos s') /\
  (length (src s') < length (src s))%nat /\
  src s' = skipn (Z.to_nat (Offset (pos s') - Offset (pos s))) (src s).
Proof.
  intros Hr Hne HS.
  destruct (reachable_inv _ _ Hr) as ([Hc _] & _ & _).
  apply (Scan_consumes s tok lit s' Hc Hne HS).
Qed.

(** The state that [Scan] leaves when called with no bytes unread: another
    call returns [EOF] again and does not change it. *)
Lemma Scan_at_end_fixed (s : Scanner) :
  src s = [] -> cursor_ok s ->
  exists F,
    Scan s = Ok (EOF, [], F) /\ Scan F = Ok (EOF, [], F) /\
    src F = [] /\ srcBytes F = srcBytes s /\ cursor_ok F.
Proof.
  intros Hsrc Hc.
  set (F := mkScanner [] (srcBytes s) eof (lastCharLen s) (pos s)
                      [] (mark s) (mark s)).
  assert (HcF : cursor_ok F).
  { destruct Hc as [(consumed & Hsplit & Hpos) Hl]. split; [|exact Hl].
    exists consumed. cbn. rewrite Hsplit, Hsrc. auto. }
  exists F. split; [now apply Scan_at_end|].
  split; [|auto].
  rewrite (Scan_at_end F eq_refl HcF). reflexivity.
Qed.

Lemma Scan_n_to_EOF (n : nat) :
  forall s, cursor_ok s -> (length (src s) <= n)%nat ->
  exists toks s',
    Scan_n (S n) s = Ok (toks ++ [(EOF, [])], s') /\
    src s' = [] /\ cursor_ok s' /\ srcBytes s' = srcBytes s /\
    Scan s' = Ok (EOF, [], s').
Proof.
  induction n as [|n IH]; intros s Hc Hlen.
  - destruct (src s) eqn:Hsrc; [|cbn in Hlen; lia].
    destruct (Scan_at_end_fixed s Hsrc Hc) as (F & HS & HF & HsF & HbF & HcF).
    exists [], F. cbn [Scan_n app]. rewrite HS. cbn [bind].
    auto.
  - destruct (src s) as [|c tl] eqn:Hsrc.
    + destruct (Scan_at_end_fixed s Hsrc Hc) as (F & HS & HF & HsF & HbF & HcF).
      exists (repeat (EOF, []) (S n)), F.
      change (Scan_n (S (S n)) s) with
        ('(tok, lit, s1) <- Scan s ;;
         '(l, s2) <- Scan_n (S n) s1 ;; Ok ((tok, lit) :: l, s2)).
      rewrite HS. cbn [bind].
      rewrite (Scan_n_fixed F EOF [] (S n) HF). cbn [bind].
      rewrite <- repeat_cons. auto.
    + destruct (Scan_spec s Hc)
        as (s1 & s2 & lit & _ & _ & _ & _ & _ & _ & _ & _ & HS & _).
      assert (Hne : src s <> []) by (rewrite Hsrc; discriminate).
      destruct (Scan_consumes s _ _ _ Hc Hne HS) as (Hc' & Hsb & _ & Hlt & _).
      destruct (IH (Scan_final s2 lit) Hc') as (toks & s' & Hrun & H1 & H2 & H3 & H4).
      { rewrite Hsrc in Hlt. lia. }
      exists ((token_of (ch s1), lit) :: toks), s'.
      change (Scan_n (S (S n)) s) with
        ('(tok, lit, s1) <- Scan s ;;
         '(l, s2) <- Scan_n (S n) s1 ;; Ok ((tok, lit) :: l, s2)).
      rewrite HS. cbn [bind]. rewrite Hrun. cbn [bind].
      split; [reflexivity|]. split; [assumption|]. split; [assumption|].
      split; [congruence | assumption].
Qed.

(** X7.  The pull loop of a client ends: from the scanner that [NewLexer]
    returns, one call of [Scan] more than the input has bytes always returns
    without panic, the last of these calls returns [EOF] with an empty
    literal at the end of the input, where the position is that of the whole
    input, and so does every further call. *)
Theorem Scan_n_ends_with_EOF (input : list Z) :
  exists toks s',
    Scan_n (S (length input)) (newScanner input) =
      Ok (toks ++ [(EOF, [])], s') /\
    src s' = [] /\ pos s' = position_of input /\
    Offset (pos s') = Z.of_nat (length input) /\
    (forall n, Scan_n n s' = Ok (repeat (EOF, []) n, s')).
Proof.
  pose proof (inv_newScanner input) as [Hc _].
  destruct (Scan_n_to_EOF (length input) (newScanner input) Hc (le_n _))
    as (toks & s' & Hrun & Hsrc & Hc' & Hsb & Hfix).
  assert (Hoff : Offset (pos s') = Z.of_nat (length input)).
  { pose proof (cursor_ok_length s' Hc') as E.
    rewrite Hsrc, Hsb in E. cbn in E. lia. }
  exists toks, s'. split; [exact Hrun|]. split; [exact Hsrc|].
  split; [|split; [exact Hoff|]].
  - rewrite (cursor_ok_position s' Hc'), Hsb, Hoff, Nat2Z.id.
    cbn [srcBytes newScanner]. now rewrite firstn_all.
  - intros n. now apply Scan_n_fixed.
Qed.

(** *** The first character after the white space *)

Lemma next_src (s : Scanner) :
  src (snd (next s)) = snd (ReadRune (src s)).
Proof.
  destruct (next_cases s)
    as [[Hsrc ->] | (r & n & pre & rest & _ & _ & _ & -> & -> & _)].
  - rewrite Hsrc. reflexivity.
  - reflexivity.
Qed.

Lemma first_rune_not_whitespace (b : Z) (tl : list Z) :
  isWhitespace b = false ->
  isWhitespace (rr_rune (fst (ReadRune (b :: tl)))) = false.
Proof.
  intros Hb. unfold ReadRune. destruct (b <? RuneSelf) eqn:E.
  - exact Hb.
  - destruct (DecodeRune b tl) as [r n] eqn:HD. cbn.
    apply DecodeRune_bytes in HD. destruct HD as [Hr _].
    unfold isWhitespace.
    replace (r =? 32) with false by (symmetry; apply Z.eqb_neq; lia).
    replace (r =? 9) with false by (symmetry; apply Z.eqb_neq; lia).
    replace (r =? 10) with false by (symmetry; apply Z.eqb_neq; lia).
    replace (r =? 13) with false by (symmetry; apply Z.eqb_neq; lia).
    reflexivity.
Qed.

Lemma after_whitespace_split (buf : list Z) :
  exists ws,
    buf = ws ++ after_whitespace buf /\
    forallb isWhitespace ws = true /\
    isWhitespace (rr_rune (fst (ReadRune (after_whitespace buf)))) = false.
Proof.
  induction buf as [|b tl IH].
  - exists []. repeat split.
  - cbn [after_whitespace]. destruct (isWhitespace b) eqn:Hb.
    + destruct IH as (ws & Hsplit & Hws & Hfirst).
      exists (b :: ws). cbn [app forallb]. rewrite Hb, Hws, <- Hsplit. auto.
    + exists []. split; [reflexivity|]. split; [reflexivity|].
      now apply first_rune_not_whitespace.
Qed.

Lemma after_whitespace_app (ws buf : list Z) :
  forallb isWhitespace ws = true ->
  after_whitespace (ws ++ buf) = after_whitespace buf.
Proof.
  induction ws as [|b ws IH]; intros Hws; [reflexivity|].
  cbn in Hws. apply andb_prop in Hws. destruct Hws as [Hb Hws].
  cbn [app after_whitespace]. rewrite Hb. auto.
Qed.

(** As [skip_prefix], with the consistency of the cursor. *)
Lemma skip_prefix_cursor (ws : list Z) :
  forall (s s1 : Scanner) (buf : list Z),
    cursor_ok s ->
    src s = ws ++ buf -> forallb isWhitespace ws = true ->
    isWhitespace (rr_rune (fst (ReadRune buf))) = false ->
    steps_while isWhitespace (snd (next s)) s1 ->
    isWhitespace (ch s1) = false ->
    exists s0,
      s1 = snd (next s0) /\ src s0 = buf /\
      cursor_ok s0 /\ srcBytes s0 = srcBytes s /\
      Offset (pos s0) = Offset (pos s) + Z.of_nat (length ws).
Proof.
  induction ws as [|b ws IH]; intros s s1 buf Hc Hsrc Hws Hbuf Hsteps Hstop.
  - cbn in Hsrc. exists s.
    split; [|repeat split; auto; cbn; try lia; apply Hc].
    apply (steps_while_stop _ _ _ Hsteps). now rewrite next_rune, Hsrc.
  - cbn in Hsrc, Hws. apply andb_prop in Hws. destruct Hws as [Hb Hws].
    destruct (isWhitespace_below_RuneSelf b Hb) as [Hlt _].
    pose proof (next_next_step s) as N.
    rewrite (next_below_RuneSelf s b (ws ++ buf) Hsrc Hlt) in Hsteps, N.
    cbn [snd] in Hsteps, N.
    apply steps_while_go in Hsteps; [|exact Hb|exact Hstop].
    destruct (IH (after_char s b 1 (ws ++ buf)) s1 buf
                 (step_cursor _ _ N Hc) eq_refl Hws Hbuf Hsteps Hstop)
      as (s0 & Hs1 & Hsrc0 & Hc0 & Hsb0 & Hoff).
    exists s0. split; [assumption|]. split; [assumption|].
    split; [assumption|]. split; [exact Hsb0|].
    cbn in Hoff. cbn [length]. lia.
Qed.

(** A call of [Scan] in terms of the state [s0] in which the white space is
    read and the bytes [after_whitespace (src s)] are unread. *)
Lemma Scan_skips (s : Scanner) :
  cursor_ok s ->
  exists s0 s2 lit,
    src s0 = after_whitespace (src s) /\
    cursor_ok s0 /\ srcBytes s0 = srcBytes s /\
    Offset (pos s) <= Offset (pos s0) /\
    cursor_ok s2 /\
    Scan s = Ok (token_of (ch (snd (next s0))), lit, Scan_final s2 lit) /\
    slice (srcBytes s) (mark (snd (next s0))) (mark s2) = Ok lit /\
    (isLetter (ch (snd (next s0))) = false ->
     s2 = set_tokPos (set_tokBuf (snd (next s0)) []) (mark (snd (next s0)))) /\
    (isLetter (ch (snd (next s0))) = true ->
     steps_while isLetterOrDigit
       (set_tokPos (set_tokBuf (snd (next s0)) []) (mark (snd (next s0)))) s2 /\
     isLetterOrDigit (ch s2) = false).
Proof.
  intros Hc.
  destruct (Scan_spec s Hc)
    as (s1 & s2 & lit & _ & Hstop & _ & _ & Hc2 & _ & _ & Hsl & HS & _ & Hnl & Hw & Hl).
  destruct (after_whitespace_split (src s)) as (ws & Hsplit & Hws & Hfirst).
  destruct (skip_prefix_cursor ws s s1 (after_whitespace (src s))
              Hc Hsplit Hws Hfirst Hw Hstop)
    as (s0 & -> & Hsrc0 & Hc0 & Hsb0 & Hoff).
  exists s0, s2, lit.
  split; [assumption|]. split; [assumption|]. split; [assumption|].
  split; [lia|]. split; [assumption|]. split; [assumption|].
  split; [assumption|]. split; assumption.
Qed.

(** X8.  The tag that [Scan] returns is decided by the first character [r]
    after the white space alone, [r] being 0 when the input ends there:
    [EOF] when [r] is 0, [IDENT] when [r] is a letter, the zero value of
    [Token] otherwise.  When [r] is not a letter the literal is empty and
    [Scan] consumes the white space and [r] and nothing more; a literal that
    is not empty comes with the tag [IDENT] only. *)
Theorem Scan_classifies (input : list Z) (s : Scanner) :
  reachable input s ->
  let buf := after_whitespace (src s) in
  let r := rr_rune (fst (ReadRune buf)) in
  exists tok lit s',
    Scan s = Ok (tok, lit, s') /\
    (r = eof -> tok = EOF) /\
    (isLetter r = true -> tok = IDENT) /\
    (r <> eof -> isLetter r = false -> tok = Token_zero) /\
    (isLetter r = false ->
     lit = [] /\ src s' = snd (ReadRune buf) /\ ch s' = r) /\
    (lit <> [] -> tok = IDENT).
Proof.
  intros Hr. cbv zeta.
  destruct (reachable_inv _ _ Hr) as ([Hc _] & _ & _).
  destruct (Scan_skips s Hc)
    as (s0 & s2 & lit & Hsrc0 & Hc0 & Hsb0 & _ & Hc2 & HS & Hsl & Hnl & Hl).
  rewrite next_rune, Hsrc0 in HS, Hnl, Hl.
  set (r := rr_rune (fst (ReadRune (after_whitespace (src s))))) in *.
  assert (Hempty : isLetter r = false ->
                   lit = [] /\
                   src (Scan_final s2 lit) =
                     snd (ReadRune (after_whitespace (src s))) /\
                   ch (Scan_final s2 lit) = r).
  { intros E. specialize (Hnl E). subst s2.
    cbn [mark pos lastCharLen set_tokPos set_tokBuf] in Hsl.
    fold (mark (snd (next s0))) in Hsl.
    apply slice_empty_inv in Hsl. subst lit.
    cbn [Scan_final src ch set_tokPos set_tokBuf].
    rewrite next_src, next_rune, Hsrc0. auto. }
  assert (Hident : isLetter r = true -> token_of r = IDENT).
  { intros E. unfold token_of. rewrite E.
    destruct (r =? eof) eqn:E0; [|reflexivity].
    apply Z.eqb_eq in E0. rewrite E0, isLetter_eof in E. discriminate. }
  exists (token_of r), lit, (Scan_final s2 lit).
  split; [exact HS|]. split; [|split; [|split; [|split]]].
  - intros ->. reflexivity.
  - exact Hident.
  - intros Hne E. unfold token_of. rewrite E.
    replace (r =? eof) with false by (symmetry; now apply Z.eqb_neq).
    reflexivity.
  - exact Hempty.
  - intros Hlit. apply Hident.
    destruct (isLetter r); [reflexivity|].
    destruct (Hempty eq_refl) as [E _]. contradiction.
Qed.

(** *** An identifier followed by another character *)

Lemma mark_next (s : Scanner) :
  src s <> [] -> mark (snd (next s)) = Offset (pos s).
Proof.
  intros Hne.
  destruct (next_cases s)
    as [[Hsrc _] | (r & n & pre & rest & _ & _ & _ & _ & -> & _)].
  - contradiction.
  - unfold mark. cbn. lia.
Qed.

Lemma skipn_app_length (pre rest : list Z) (x : nat) :
  skipn (length pre + x) (pre ++ rest) = skipn x rest.
Proof.
  induction pre as [|b pre IH]; [reflexivity | exact IH].
Qed.

Lemma run_length_nonneg (fuel : nat) (buf : list Z) :
  0 <= run_length fuel buf.
Proof.
  revert buf. induction fuel as [|f IHf]; intros buf; [cbn; lia|].
  cbn [run_length]. destruct buf as [|c tl]; [cbn; lia|].
  destruct (ReadRune_cons c tl) as (r & n & pre & rest' & -> & _ & _ & Hn & _).
  cbn. destruct (isLetterOrDigit r); [specialize (IHf rest')|]; lia.
Qed.

Lemma run_length_steps (fuel : nat) :
  forall (buf : list Z) (s s2 : Scanner),
    src s = buf -> (length buf <= fuel)%nat ->
    run_length fuel buf < Z.of_nat (length buf) ->
    isLetterOrDigit (ch s) = true ->
    steps_while isLetterOrDigit s s2 -> isLetterOrDigit (ch s2) = false ->
    mark s2 = Offset (pos s) + run_length fuel buf /\
    1 <= lastCharLen s2 /\
    src s2 = skipn (Z.to_nat (run_length fuel buf + lastCharLen s2)) buf.
Proof.
  induction fuel as [|fuel IH]; intros buf s s2 Hsrc Hfuel Hrun Hch Hsteps Hstop.
  - cbn in Hrun. lia.
  - destruct buf as [|c tl]; [cbn in Hrun; lia|].
    cbn [run_length] in *.
    destruct (ReadRune_cons c tl)
      as (r & n & pre & rest & HR & Hsplit & Hlen & Hn & _).
    rewrite HR in *. cbn [rr_err rr_rune rr_size negb andb] in *.
    apply steps_while_go in Hsteps; [|assumption|assumption].
    rewrite <- Hsrc in HR.
    rewrite (next_ReadRune s r n rest HR) in Hsteps. cbn [snd] in Hsteps.
    assert (Hl : Z.of_nat (length (c :: tl)) = n + Z.of_nat (length rest)).
    { rewrite Hsplit, length_app. lia. }
    assert (Hskip : forall x, 0 <= x ->
              skipn (Z.to_nat (n + x)) (c :: tl) = skipn (Z.to_nat x) rest).
    { intros x Hx. rewrite Hsplit.
      replace (Z.to_nat (n + x)) with (length pre + Z.to_nat x)%nat by lia.
      apply skipn_app_length. }
    destruct (isLetterOrDigit r) eqn:Hr.
    + destruct (IH rest (after_char s r n rest) s2 eq_refl) as (E1 & E2 & E3);
        try assumption; try lia.
      split; [rewrite E1; cbn; lia|]. split; [assumption|].
      rewrite E3, <- Hskip; [f_equal; lia|].
      pose proof (run_length_nonneg fuel rest). lia.
    + apply steps_while_stop in Hsteps; [|exact Hr]. subst s2.
      unfold mark. cbn. split; [lia|]. split; [lia|].
      rewrite <- (Z.add_0_r n), Hskip by lia. reflexivity.
Qed.

(** X9.  When the first character after the white space is a letter and the run
    of letters and digits it begins, [k] bytes long, is followed by another
    character, [Scan] returns [IDENT] with the whole run as the literal; it
    has consumed the character after the run as well, so that the next call
    begins after that character. *)
Theorem Scan_identifier_delimited (input : list Z) (s : Scanner) :
  reachable input s ->
  let buf := after_whitespace (src s) in
  let k := run_length (length buf) buf in
  isLetter (rr_rune (fst (ReadRune buf))) = true ->
  k < Z.of_nat (length buf) ->
  exists s',
    Scan s = Ok (IDENT, firstn (Z.to_nat k) buf, s') /\
    isLetterOrDigit (ch s') = false /\
    1 <= lastCharLen s' /\
    src s' = skipn (Z.to_nat (k + lastCharLen s')) buf /\
    tokEnd s' + lastCharLen s' = Offset (pos s').
Proof.
  intros Hr. cbv zeta. intros Hfirst Hk.
  destruct (reachable_inv _ _ Hr) as ([Hc _] & _ & _).
  destruct (Scan_skips s Hc)
    as (s0 & s2 & lit & Hsrc0 & Hc0 & Hsb0 & _ & Hc2 & HS & Hsl & _ & Hl).
  set (buf := after_whitespace (src s)) in *.
  destruct buf as [|c tl] eqn:Hbuf; [discriminate|].
  destruct (ReadRune_cons c tl)
    as (r & n & pre & rest & HR & Hsplit & Hlen & Hn & _).
  rewrite HR in Hfirst. cbn [fst rr_rune] in Hfirst.
  assert (Hne : src s0 <> []) by (rewrite Hsrc0; discriminate).
  pose proof (mark_next s0 Hne) as Hm1.
  rewrite <- Hsrc0 in HR.
  rewrite (next_ReadRune s0 r n rest HR) in *. cbn [snd] in *.
  cbn [ch after_char] in Hl, HS.
  destruct (Hl Hfirst) as [Hsteps Hend].
  assert (Hld : isLetterOrDigit r = true)
    by (unfold isLetterOrDigit; now rewrite Hfirst).
  assert (Hk' : run_length (length (c :: tl)) (c :: tl) =
                n + run_length (length tl) rest).
  { cbn [length run_length]. rewrite <- Hsrc0 at 1. rewrite HR.
    cbn [rr_err rr_rune rr_size negb andb]. now rewrite Hld. }
  assert (Hl2 : Z.of_nat (length (c :: tl)) = n + Z.of_nat (length rest)).
  { rewrite Hsplit, length_app. lia. }
  destruct (run_length_steps (length tl) rest
              (set_tokPos (set_tokBuf (after_char s0 r n rest) [])
                          (mark (after_char s0 r n rest)))
              s2 eq_refl) as (E1 & E2 & E3); try assumption.
  { cbn [length] in Hl2. lia. }
  { lia. }
  assert (Htok : token_of r = IDENT).
  { unfold token_of. rewrite Hfirst.
    destruct (r =? eof) eqn:E0; [|reflexivity].
    apply Z.eqb_eq in E0. rewrite E0, isLetter_eof in Hfirst. discriminate. }
  cbn [pos Offset set_tokPos set_tokBuf after_char] in E1.
  rewrite Hm1 in Hsl. apply slice_inv in Hsl. destruct Hsl as (_ & _ & Hlit).
  rewrite <- Hsb0, <- (cursor_ok_src s0 Hc0), Hsrc0 in Hlit.
  replace (mark s2 - Offset (pos s0))
    with (run_length (length (c :: tl)) (c :: tl)) in Hlit by lia.
  rewrite Htok, Hlit in HS.
  eexists. split; [exact HS|].
  split; [exact Hend|]. split; [exact E2|]. split.
  - cbn [src Scan_final lastCharLen]. rewrite E3, Hk', Hsplit.
    pose proof (run_length_nonneg (length tl) rest).
    replace (Z.to_nat (n + run_length (length tl) rest + lastCharLen s2))
      with (length pre + Z.to_nat (run_length (length tl) rest + lastCharLen s2))%nat
      by lia.
    now rewrite skipn_app_length.
  - cbn [tokEnd Scan_final lastCharLen pos]. unfold mark. lia.
Qed.

(** *** The tokens depend on the unread bytes only *)

Lemma next_same_cursor (d : Z) (s t : Scanner) :
  src s = src t -> src s <> [] -> Offset (pos s) = Offset (pos t) + d ->
  same_cursor d (snd (next s)) (snd (next t)).
Proof.
  intros Hsrc Hne Hoff.
  destruct (next_cases s)
    as [[E _] | (r & n & pre & rest & _ & _ & _ & HR & Hn & _)];
    [contradiction|].
  rewrite Hn. rewrite Hsrc in HR. rewrite (next_ReadRune t r n rest HR).
  constructor; cbn; try reflexivity. lia.
Qed.

Lemma same_cursor_next (d : Z) (s t : Scanner) :
  same_cursor d s t -> same_cursor d (snd (next s)) (snd (next t)).
Proof.
  intros [Hsrc Hch Hl Hoff].
  destruct (src s) as [|c tl] eqn:Es.
  - rewrite (next_eof s Es), (next_eof t (eq_sym Hsrc)).
    constructor; cbn; auto.
  - apply next_same_cursor; [congruence | rewrite Es; discriminate | assumption].
Qed.

Lemma same_cursor_steps (P : Z -> bool) (d : Z) (s s2 : Scanner) :
  steps_while P s s2 ->
  forall t t2,
    same_cursor d s t -> P (ch s2) = false ->
    steps_while P t t2 -> P (ch t2) = false ->
    same_cursor d s2 t2.
Proof.
  induction 1 as [s | s s2 Hp _ IH]; intros t t2 Hsame Hs2 Ht Ht2.
  - apply steps_while_stop in Ht; [now subst t2|].
    now rewrite <- (same_ch _ _ _ Hsame).
  - apply steps_while_go in Ht;
      [| now rewrite <- (same_ch _ _ _ Hsame) | assumption].
    apply (IH _ _ (same_cursor_next _ _ _ Hsame) Hs2 Ht Ht2).
Qed.

(** Two calls of [Scan] in states whose unread bytes agree after their
    leading white space return the same token and the same literal, and
    leave the same bytes unread. *)
Lemma Scan_same (s t : Scanner) :
  cursor_ok s -> cursor_ok t ->
  after_whitespace (src s) = after_whitespace (src t) ->
  exists tok lit s' t',
    Scan s = Ok (tok, lit, s') /\ Scan t = Ok (tok, lit, t') /\
    src s' = src t' /\ cursor_ok s' /\ cursor_ok t'.
Proof.
  intros Hcs Hct Hsrc.
  destruct (Scan_skips s Hcs)
    as (s0 & s2 & lit & Hsrc0 & Hc0 & Hsb0 & _ & Hc2 & HS & Hsl & Hnl & Hl).
  destruct (Scan_skips t Hct)
    as (t0 & t2 & lit' & Htrc0 & Hd0 & Htb0 & _ & Hd2 & HT & Htl & Hnl' & Hl').
  rewrite <- Hsrc in Htrc0.
  set (buf := after_whitespace (src s)) in *.
  assert (Hch : ch (snd (next s0)) = ch (snd (next t0)))
    by (rewrite !next_rune; congruence).
  rewrite <- Hch in *.
  destruct (isLetter (ch (snd (next s0)))) eqn:Hletter.
  - (* an identifier *)
    destruct (Hl eq_refl) as [Hsteps Hend].
    destruct (Hl' eq_refl) as [Hsteps' Hend'].
    assert (Hne : src s0 <> []).
    { intros E. rewrite next_rune, E in Hletter. discriminate. }
    assert (Hne' : src t0 <> []) by congruence.
    pose proof (next_same_cursor (Offset (pos s0) - Offset (pos t0)) s0 t0
                  ltac:(congruence) Hne ltac:(lia)) as Hsame1.
    assert (Hsame1' : same_cursor (Offset (pos s0) - Offset (pos t0))
              (set_tokPos (set_tokBuf (snd (next s0)) []) (mark (snd (next s0))))
              (set_tokPos (set_tokBuf (snd (next t0)) []) (mark (snd (next t0))))).
    { destruct Hsame1. constructor; assumption. }
    pose proof (same_cursor_steps _ _ _ _ Hsteps _ _ Hsame1' Hend Hsteps' Hend')
      as [Hsrc2 Hch2 Hlen2 Hoff2].
    rewrite (mark_next s0 Hne) in Hsl. rewrite (mark_next t0 Hne') in Htl.
    apply slice_inv in Hsl. destruct Hsl as (_ & _ & Hlit).
    apply slice_inv in Htl. destruct Htl as (_ & _ & Hlit').
    rewrite <- Hsb0, <- (cursor_ok_src s0 Hc0), Hsrc0 in Hlit.
    rewrite <- Htb0, <- (cursor_ok_src t0 Hd0), Htrc0 in Hlit'.
    assert (Elit : lit' = lit).
    { rewrite Hlit, Hlit'. do 2 f_equal. unfold mark. lia. }
    rewrite Elit in HT.
    exists (token_of (ch (snd (next s0)))), lit, (Scan_final s2 lit), (Scan_final t2 lit).
    split; [exact HS|]. split; [exact HT|]. split; [exact Hsrc2|].
    split; [exact Hc2 | exact Hd2].
  - (* no identifier: the literal is empty *)
    specialize (Hnl eq_refl). specialize (Hnl' eq_refl). subst s2 t2.
    cbn [mark pos lastCharLen set_tokPos set_tokBuf] in Hsl, Htl.
    fold (mark (snd (next s0))) in Hsl. fold (mark (snd (next t0))) in Htl.
    apply slice_empty_inv in Hsl. apply slice_empty_inv in Htl. subst lit lit'.
    eexists _, _, _, _. split; [exact HS|]. split; [exact HT|].
    split; [|split; [exact Hc2 | exact Hd2]].
    cbn [src Scan_final set_tokPos set_tokBuf]. rewrite !next_src. congruence.
Qed.

Lemma Scan_n_same (n : nat) :
  forall s t,
    cursor_ok s -> cursor_ok t ->
    after_whitespace (src s) = after_whitespace (src t) ->
    exists toks s' t',
      Scan_n n s = Ok (toks, s') /\ Scan_n n t = Ok (toks, t').
Proof.
  induction n as [|n IH]; intros s t Hcs Hct Hsrc.
  - exists [], s, t. split; reflexivity.
  - destruct (Scan_same s t Hcs Hct Hsrc)
      as (tok & lit & s1 & t1 & HS & HT & Hsrc1 & Hcs1 & Hct1).
    destruct (IH s1 t1 Hcs1 Hct1 ltac:(now rewrite Hsrc1))
      as (toks & s' & t' & Hs' & Ht').
    exists ((tok, lit) :: toks), s', t'.
    cbn [Scan_n]. rewrite HS, HT. cbn [bind]. rewrite Hs', Ht'.
    split; reflexivity.
Qed.

(** X11.  The tokens still to come depend on the unread bytes only: two scanners,
    whatever their inputs and whatever they have returned so far, that have
    the same bytes unread return the same tokens and literals from then on,
    for any number of calls of [Scan]. *)
Theorem Scan_n_depends_on_unread_bytes
  (input1 input2 : list Z) (s t : Scanner) (n : nat) :
  reachable input1 s -> reachable input2 t -> src s = src t ->
  exists toks s' t',
    Scan_n n s = Ok (toks, s') /\ Scan_n n t = Ok (toks, t').
Proof.
  intros Hs Ht Hsrc.
  destruct (reachable_inv _ _ Hs) as ([Hcs _] & _ & _).
  destruct (reachable_inv _ _ Ht) as ([Hct _] & _ & _).
  apply Scan_n_same; [assumption | assumption | now rewrite Hsrc].
Qed.

(** X12.  White space before the input changes no token: the scanner of
    [ws ++ buf], for [ws] of white space, returns the tokens and literals
    that the scanner of [buf] returns, for any number of calls of [Scan]. *)
Theorem Scan_n_leading_whitespace (ws buf : list Z) (n : nat) :
  forallb isWhitespace ws = true ->
  exists toks s' t',
    Scan_n n (newScanner (ws ++ buf)) = Ok (toks, s') /\
    Scan_n n (newScanner buf) = Ok (toks, t').
Proof.
  intros Hws.
  apply Scan_n_same.
  - apply inv_newScanner.
  - apply inv_newScanner.
  - cbn [src newScanner]. now apply after_whitespace_app.
Qed.

(** X5.  Before any call of [Scan]: [NewLexer] returns no scanner exactly when
    the read fails, with the error of the read; the scanner it returns
    otherwise holds the whole input, at position zero, and on it
    [TokenLiteral] returns the empty string and changes nothing. *)
Theorem NewLexer_fresh (r : Reader) :
  (forall err, reader_err r = Some err <-> NewLexer r = (None, Some err)) /\
  (forall s, NewLexer r = (Some s, None) ->
     reader_err r = None /\
     srcBytes s = reader_data r /\ src s = reader_data r /\
     pos s = Position_zero /\
     TokenLiteral s = Ok ([], s) /\
     reachable (reader_data r) s).
Proof.
  unfold NewLexer, ReadAll. split.
  - intros err. destruct (reader_err r) as [e|]; split; intros E;
      try discriminate; injection E as ->; reflexivity.
  - intros s. destruct (reader_err r) as [e|]; [discriminate|].
    intros [= <-]. repeat split.
    + unfold TokenLiteral. cbn [tokPos tokEnd newScanner srcBytes tokBuf].
      rewrite slice_empty by (cbn; lia). reflexivity.
    + apply reach_NewLexer.
Qed.

End Further.

(** ** Examples, with the declarations of the examples *)

#[local] Existing Instance example_declarations.

(** The input "café": the last character, U+00E9, takes two bytes, and
    the literal is "caf". *)
Lemma Scan_cafe :
  Scan_n 2 (newScanner [99; 97; 102; 0xC3; 0xA9]) =
    Ok ([(IDENT, [99; 97; 102]); (EOF, [])],
        mkScanner [] [99; 97; 102; 0xC3; 0xA9] eof 2 (mkPosition 5 0 5)
                  [] 3 3).
Proof. vm_compute. reflexivity. Qed.

(** The input "  foo\t bar": the second identifier ends the input and
    loses its last character. *)
Lemma Scan_foo_bar :
  exists s,
    Scan_n 3 (newScanner (bytes "  foo" ++ [9] ++ bytes " bar")) =
      Ok ([(IDENT, bytes "foo"); (IDENT, bytes "ba"); (EOF, [])], s).
Proof. eexists. vm_compute. reflexivity. Qed.

(** C5 at the call of [TokenLiteral] that [Scan] makes on the input "a b":
    the call moves [tokPos] from 0 to 1, so the span [0, 1) becomes
    [1, 1). *)
Lemma TokenLiteral_moves_tokPos :
  Scan_start (newScanner (bytes "a b")) = Ok (97, started_a_b) /\
  Scan_token 97 started_a_b = Ok (IDENT, scanning_a_b) /\
  TokenLiteral scanning_a_b = Ok (bytes "a", scanned_a_b) /\
  (tokPos scanning_a_b, tokEnd scanning_a_b) = (0, 1) /\
  (tokPos scanned_a_b, tokEnd scanned_a_b) = (1, 1) /\
  tokPos scanned_a_b <> tokPos scanning_a_b.
Proof.
  repeat split; try (vm_compute; reflexivity). vm_compute. discriminate.
Qed.

(** C7 at the input "a\nb": the line is 0, not 1, while the cursor is on
    the first line, and 1, not 2, once the line feed is consumed. *)
Lemma Line_counts_from_0 :
  Line (pos (newScanner [97; 10; 98])) = 0 /\
  (exists s1 s2,
      Scan (newScanner [97; 10; 98]) = Ok (IDENT, [97], s1) /\
      Scan s1 = Ok (IDENT, [], s2) /\
      pos s1 = mkPosition 2 1 0 /\ pos s2 = mkPosition 3 1 1) /\
  (exists s1,
      Scan (newScanner (bytes "a")) = Ok (IDENT, [], s1) /\
      pos s1 = mkPosition 1 0 1).
Proof.
  split; [reflexivity|]. split.
  - exists (mkScanner [98] [97; 10; 98] 10 1 (mkPosition 2 1 0) [97] 1 1),
      (mkScanner [] [97; 10; 98] eof 1 (mkPosition 3 1 1) [] 2 2).
    repeat split; vm_compute; reflexivity.
  - exists (mkScanner [] (bytes "a") eof 1 (mkPosition 1 0 1) [] 0 0).
    split; vm_compute; reflexivity.
Qed.

(** C8 at an input that begins with the character 0, which is of no class:
    [Scan] returns [EOF] although two bytes are still unread, and the next
    call returns an identifier. *)
Lemma Scan_NUL_returns_EOF :
  exists s1 s2,
    Scan (newScanner [0; 97; 32]) = Ok (EOF, [], s1) /\
    src s1 = [97; 32] /\
    Scan s1 = Ok (IDENT, [97], s2).
Proof.
  exists (mkScanner [97; 32] [0; 97; 32] 0 1 (mkPosition 1 0 1) [] 0 0),
    (mkScanner [] [0; 97; 32] 32 1 (mkPosition 3 0 3) [97] 2 2).
  repeat split; vm_compute; reflexivity.
Qed.

Lemma reachable_scanned_a_b : reachable (bytes "a b") scanned_a_b.
Proof.
  apply (reach_Scan _ (newScanner (bytes "a b")) IDENT (bytes "a")).
  - apply reach_NewLexer.
  - vm_compute. reflexivity.
Qed.

(** The theorems at concrete inputs. *)

Lemma Scan_whitespace_only_witness :
  forallb isWhitespace [9; 10; 32] = true /\
  IDENT <> EOF /\
  exists s1,
    Scan (newScanner [9; 10; 32]) = Ok (EOF, [], s1) /\
    Scan s1 = Ok (EOF, [], s1) /\
    Offset (pos s1) = 3 /\
    forall n toks s', Scan_n n (newScanner [9; 10; 32]) = Ok (toks, s') ->
                      ~ In IDENT (map fst toks).
Proof.
  split; [reflexivity|]. split; [discriminate|].
  destruct (Scan_whitespace_only [9; 10; 32] eq_refl)
    as (s1 & H1 & H2 & _ & H3 & _ & H4).
  exists s1. split; [exact H1|]. split; [exact H2|]. split; [exact H3|].
  apply H4. discriminate.
Defined.

Lemma Scan_monotone_witness :
  reachable (bytes "a b") (newScanner (bytes "a b")) /\
  exists tok1 lit1 s1 c2 m2 tok2 lit2 s2,
    Scan (newScanner (bytes "a b")) = Ok (tok1, lit1, s1) /\
    Scan_start s1 = Ok (c2, m2) /\
    Scan s1 = Ok (tok2, lit2, s2) /\
    tokEnd s1 <= tokPos m2 /\
    Offset (pos s1) <= Offset (pos s2).
Proof.
  split; [apply reach_NewLexer|].
  destruct (Scan_monotone (bytes "a b") (newScanner (bytes "a b"))
              (reach_NewLexer _))
    as (c1 & m1 & tok1 & lit1 & s1 & c2 & m2 & tok2 & lit2 & s2 &
        _ & H2 & H3 & H4 & H5 & _ & _ & H7).
  exists tok1, lit1, s1, c2, m2, tok2, lit2, s2.
  split; [exact H2|]. split; [exact H3|]. split; [exact H4|].
  split; [exact H5 | exact H7].
Defined.

Lemma TokenLiteral_span_witness :
  TokenLiteral scanning_a_b = Ok (bytes "a", scanned_a_b) /\
  tokEnd scanned_a_b = tokEnd scanning_a_b /\
  tokPos scanned_a_b = tokEnd scanning_a_b.
Proof.
  split; [vm_compute; reflexivity|].
  destruct (TokenLiteral_span scanning_a_b (bytes "a") scanned_a_b)
    as (H1 & H2 & _).
  - vm_compute. reflexivity.
  - split; [exact H1 | exact H2].
Defined.

Lemma TokenLiteral_idempotent_witness :
  reachable (bytes "a b") (newScanner (bytes "a b")) /\
  exists tok lit s1,
    Scan (newScanner (bytes "a b")) = Ok (tok, lit, s1) /\
    TokenLiteral s1 = Ok (lit, s1).
Proof.
  split; [apply reach_NewLexer|].
  destruct (TokenLiteral_idempotent (bytes "a b") (newScanner (bytes "a b"))
              (reach_NewLexer _))
    as (c & m & tok & lit & s1 & _ & H1 & H2 & _).
  exists tok, lit, s1. split; [exact H1 | exact H2].
Defined.

Lemma position_invariant_witness :
  reachable (bytes "a b") scanned_a_b /\
  pos scanned_a_b = position_of (firstn 2 (bytes "a b")) /\
  Line (pos scanned_a_b) = 0.
Proof.
  split; [exact reachable_scanned_a_b|].
  destruct (position_invariant scanned_a_b) as [_ G].
  destruct (G (bytes "a b") reachable_scanned_a_b) as (H1 & H2 & _).
  split; [exact H1 | exact H2].
Defined.

Lemma Scan_unclassified_witness :
  forallb isWhitespace [32] = true /\
  ReadRune (bytes "12a") = (mkReadRune 49 1 false, bytes "2a") /\
  isDigit 49 = true /\
  isWhitespace 49 = false /\ isLetter 49 = false /\ 49 <> eof /\
  exists s',
    Scan (newScanner ([32] ++ bytes "12a")) = Ok (Token_zero, [], s') /\
    src s' = bytes "2a" /\ Offset (pos s') = 2.
Proof.
  split; [reflexivity|]. split; [reflexivity|]. split; [reflexivity|].
  split; [reflexivity|]. split; [reflexivity|]. split; [discriminate|].
  destruct (Scan_unclassified [32] (bytes "12a") 49 1 (bytes "2a"))
    as (s' & H1 & H2 & _ & H3 & _); try reflexivity; try discriminate.
  exists s'. split; [exact H1|]. split; [exact H2 | exact H3].
Defined.

Lemma Scan_TokenLiteral_never_panic_witness :
  reachable (bytes "a b") scanned_a_b /\
  (0 <= tokPos scanned_a_b <= tokEnd scanned_a_b /\
   tokEnd scanned_a_b <= Z.of_nat (length (srcBytes scanned_a_b))) /\
  (exists lit s', TokenLiteral scanned_a_b = Ok (lit, s')).
Proof.
  split; [exact reachable_scanned_a_b|].
  destruct (Scan_TokenLiteral_never_panic (bytes "a b") scanned_a_b
              reachable_scanned_a_b) as (H1 & H2 & _).
  split; [exact H1 | exact H2].
Defined.


Lemma Scan_progress_witness :
  reachable (bytes "a b") (newScanner (bytes "a b")) /\
  src (newScanner (bytes "a b")) <> [] /\
  Scan (newScanner (bytes "a b")) = Ok (IDENT, bytes "a", scanned_a_b) /\
  Offset (pos (newScanner (bytes "a b"))) < Offset (pos scanned_a_b) /\
  src scanned_a_b = skipn 2 (bytes "a b").
Proof.
  assert (Hr : reachable (bytes "a b") (newScanner (bytes "a b")))
    by apply reach_NewLexer.
  assert (Hne : src (newScanner (bytes "a b")) <> []) by discriminate.
  assert (HS : Scan (newScanner (bytes "a b")) = Ok (IDENT, bytes "a", scanned_a_b))
    by (vm_compute; reflexivity).
  split; [exact Hr|]. split; [exact Hne|]. split; [exact HS|].
  destruct (Scan_progress _ _ _ _ _ Hr Hne HS) as (H1 & _ & H2).
  split; [exact H1 | exact H2].
Defined.

Lemma Scan_classifies_witness :
  reachable (bytes " 12a") (newScanner (bytes " 12a")) /\
  exists tok lit s',
    Scan (newScanner (bytes " 12a")) = Ok (tok, lit, s') /\
    tok = Token_zero /\ lit = [] /\ src s' = bytes "2a".
Proof.
  split; [apply reach_NewLexer|].
  destruct (Scan_classifies (bytes " 12a") (newScanner (bytes " 12a"))
              (reach_NewLexer _))
    as (tok & lit & s' & HS & _ & _ & H3 & H4 & _).
  exists tok, lit, s'. split; [exact HS|].
  split; [apply H3; [discriminate | reflexivity]|].
  destruct (H4 eq_refl) as (E1 & E2 & _). split; [exact E1 | exact E2].
Defined.

Lemma Scan_identifier_delimited_witness :
  reachable (bytes "  foo bar") (newScanner (bytes "  foo bar")) /\
  isLetter (rr_rune (fst (ReadRune (bytes "foo bar")))) = true /\
  run_length 7 (bytes "foo bar") = 3 /\
  exists s',
    Scan (newScanner (bytes "  foo bar")) = Ok (IDENT, bytes "foo", s') /\
    src s' = bytes "bar".
Proof.
  split; [apply reach_NewLexer|]. split; [reflexivity|]. split; [reflexivity|].
  destruct (Scan_identifier_delimited (bytes "  foo bar")
              (newScanner (bytes "  foo bar")) (reach_NewLexer _)
              eq_refl eq_refl)
    as (s' & HS & _ & H1 & H2 & H3).
  exists s'. split; [exact HS|].
  assert (E : lastCharLen s' = 1).
  { assert (G : Scan (newScanner (bytes "  foo bar")) =
                Ok (IDENT, bytes "foo",
                    mkScanner (bytes "bar") (bytes "  foo bar") 32 1
                              (mkPosition 6 0 6) (bytes "foo") 5 5))
      by (vm_compute; reflexivity).
    rewrite G in HS. injection HS as <-. reflexivity. }
  rewrite E in H2. exact H2.
Defined.

Lemma Scan_identifier_at_end_witness :
  identifier [99; 97; 102; 0xC3; 0xA9] = Some 2 /\
  exists s1 s2,
    Scan (newScanner [99; 97; 102; 0xC3; 0xA9]) = Ok (IDENT, bytes "caf", s1) /\
    Scan s1 = Ok (EOF, [], s2).
Proof.
  assert (Hid : identifier [99; 97; 102; 0xC3; 0xA9] = Some 2)
    by (vm_compute; reflexivity).
  split; [exact Hid|].
  destruct (Scan_identifier_at_end [99; 97; 102; 0xC3; 0xA9] 2 Hid)
    as (_ & _ & s1 & s2 & H1 & H2).
  exists s1, s2. split; [exact H1 | exact H2].
Defined.

Lemma Scan_n_depends_on_unread_bytes_witness :
  reachable (bytes "a b") scanned_a_b /\
  reachable (bytes "b") (newScanner (bytes "b")) /\
  src scanned_a_b = src (newScanner (bytes "b")) /\
  exists toks s' t',
    Scan_n 2 scanned_a_b = Ok (toks, s') /\
    Scan_n 2 (newScanner (bytes "b")) = Ok (toks, t').
Proof.
  split; [exact reachable_scanned_a_b|]. split; [apply reach_NewLexer|].
  split; [reflexivity|].
  exact (Scan_n_depends_on_unread_bytes (bytes "a b") (bytes "b")
           scanned_a_b (newScanner (bytes "b")) 2
           reachable_scanned_a_b (reach_NewLexer _) eq_refl).
Defined.

Lemma Scan_n_leading_whitespace_witness :
  forallb isWhitespace [32; 9] = true /\
  exists toks s' t',
    Scan_n 3 (newScanner ([32; 9] ++ bytes "a b")) = Ok (toks, s') /\
    Scan_n 3 (newScanner (bytes "a b")) = Ok (toks, t').
Proof.
  split; [reflexivity|].
  exact (Scan_n_leading_whitespace [32; 9] (bytes "a b") 3 eq_refl).
Defined.
